(** * Wave-C (wave5.c): code emitter, single-pass compiler and ELF writer

    A shallow embedding of [src/wave5.c].  Bytes, characters, offsets and
    machine integers are values of [Z]; conversions between the C integer
    types are written out as reductions modulo a power of two.  The C
    [double]s of the rule/field subsystem are IEEE binary64 primitive floats. *)

From Stdlib Require Import Bool String Ascii Floats Uint63 ZArith List Lia.
Import ListNotations.
Open Scope Z_scope.
Set Warnings "-inexact-float".

(* ================================================================== *)
(** ** Constants *)

Definition MAX_CODE : Z := 4 * 1024 * 1024.
Definition MAX_DATA : Z := 1024 * 1024.
Definition MAX_VARS : Z := 4096.
Definition MAX_FUNCS : Z := 2048.
Definition MAX_LABELS : Z := 8192.
Definition MAX_IDENT : Z := 256.
Definition MAX_POOLS : Z := 16.
Definition MAX_ADAPTERS : Z := 32.

(* ================================================================== *)
(** ** Machine integers, characters and C strings *)

(** Conversions to the unsigned and signed fixed-width types. *)
Definition to_u8 (v : Z) : Z := v mod 2 ^ 8.
Definition to_u32 (v : Z) : Z := v mod 2 ^ 32.
Definition to_u64 (v : Z) : Z := v mod 2 ^ 64.
Definition to_i32 (v : Z) : Z := (v + 2 ^ 31) mod 2 ^ 32 - 2 ^ 31.
Definition to_i64 (v : Z) : Z := (v + 2 ^ 63) mod 2 ^ 64 - 2 ^ 63.

(** A C string literal as the list of its character codes. *)
Definition str (s : string) : list Z :=
  map (fun a => Z.of_nat (nat_of_ascii a)) (list_ascii_of_string s).

Definition zlength {A} (l : list A) : Z := Z.of_nat (length l).

(** [strcmp(a, b) == 0] on NUL-free strings. *)
Fixpoint name_eqb (a b : list Z) : bool :=
  match a, b with
  | [], [] => true
  | x :: a', y :: b' => (x =? y) && name_eqb a' b'
  | _, _ => false
  end.

(** [strncpy(dst, src, n)] into a zeroed field of more than [n] bytes keeps
    the first [n] characters of [src]. *)
Definition strncpy (n : nat) (src : list Z) : list Z := firstn n src.

(** [strlen] of a buffer: the characters before the first NUL. *)
Fixpoint c_str (buf : list Z) : list Z :=
  match buf with
  | [] => []
  | ch :: rest => if ch =? 0 then [] else ch :: c_str rest
  end.

Definition strlen (buf : list Z) : Z := zlength (c_str buf).

(** <ctype.h> in the C locale; bytes above 127 belong to no class. *)
Definition isdigit (ch : Z) : bool := (48 <=? ch) && (ch <=? 57).
Definition isupper (ch : Z) : bool := (65 <=? ch) && (ch <=? 90).
Definition islower (ch : Z) : bool := (97 <=? ch) && (ch <=? 122).
Definition isalpha (ch : Z) : bool := isupper ch || islower ch.
Definition isalnum (ch : Z) : bool := isalpha ch || isdigit ch.
Definition isxdigit (ch : Z) : bool :=
  isdigit ch || ((97 <=? ch) && (ch <=? 102)) || ((65 <=? ch) && (ch <=? 70)).
Definition isspace (ch : Z) : bool :=
  (ch =? 32) || ((9 <=? ch) && (ch <=? 13)).

(** Array cell assignment [a[i] = x] where [i] is at most the number of cells
    initialised so far: an initialised cell is overwritten, the next free
    cell is initialised. *)
Fixpoint array_set_nat {A} (l : list A) (i : nat) (x : A) : list A :=
  match l, i with
  | [], _ => [x]
  | _ :: l', O => x :: l'
  | y :: l', S i' => y :: array_set_nat l' i' x
  end.

Definition array_set {A} (l : list A) (i : Z) (x : A) : list A :=
  array_set_nat l (Z.to_nat i) x.

(** Assignment to a byte of an already written region; an index outside the
    region leaves it as it is. *)
Fixpoint store_nat (l : list Z) (i : nat) (v : Z) : list Z :=
  match l, i with
  | [], _ => []
  | _ :: l', O => v :: l'
  | y :: l', S i' => y :: store_nat l' i' v
  end.

Definition store (l : list Z) (i : Z) (v : Z) : list Z :=
  if i <? 0 then l else store_nat l (Z.to_nat i) v.

(** Decimal digits of a non-negative [int], as [sprintf("%d")] prints them. *)
Fixpoint dec_digits (fuel : nat) (n : Z) (acc : list Z) : list Z :=
  match fuel with
  | O => acc
  | S fuel' =>
      let acc' := (48 + n mod 10) :: acc in
      if n / 10 =? 0 then acc' else dec_digits fuel' (n / 10) acc'
  end.

Definition sprintf_d (n : Z) : list Z :=
  if n <? 0 then 45 :: dec_digits 20 (- n) [] else dec_digits 20 n [].

(* ================================================================== *)
(** ** Variable and function tables *)

Inductive VarType := VAR_INT | VAR_FLOAT | VAR_STRING | VAR_ARRAY | VAR_OBJECT.

Record Variable_t := mkVariable {
  var_name : list Z;
  var_type : VarType;
  int_val : Z;
  stack_offset : Z;
  is_param : bool;
  is_global : bool;
  global_addr : Z
}.

Record Function_t := mkFunction {
  fn_name : list Z;
  code_offset : Z;
  param_count : Z;
  params : list (list Z);
  body_pos : Z;
  body_end : Z
}.

(* ================================================================== *)
(** ** Code generator state

    [code] holds the bytes written so far, [code[0 .. code_pos)]; the cursor
    is its length.  The same for [data].  The variable and function tables
    are arrays with an explicit count, because the compiler saves, resets
    and restores the counts. *)

Record CodeGen := mkCodeGen {
  code : list Z;
  code_cap : Z;
  data : list Z;
  data_cap : Z;
  vars : list Variable_t;
  var_count : Z;
  stack_size : Z;
  global_var_count : Z;
  global_data_pos : Z;
  funcs : list Function_t;
  func_count : Z;
  fixups : list (Z * list Z);
  labels : list (list Z * Z);
  when_id : Z;
  loop_id : Z;
  cg_platform : Z;
  raw_mode : bool;
  in_function : bool
}.

Definition code_pos (cg : CodeGen) : Z := zlength (code cg).
Definition data_pos (cg : CodeGen) : Z := zlength (data cg).
Definition fixup_count (cg : CodeGen) : Z := zlength (fixups cg).
Definition label_count (cg : CodeGen) : Z := zlength (labels cg).

Definition set_code (cg : CodeGen) (v : list Z) : CodeGen :=
  mkCodeGen v (code_cap cg) (data cg) (data_cap cg) (vars cg) (var_count cg)
    (stack_size cg) (global_var_count cg) (global_data_pos cg) (funcs cg)
    (func_count cg) (fixups cg) (labels cg) (when_id cg) (loop_id cg)
    (cg_platform cg) (raw_mode cg) (in_function cg).

Definition set_vars (cg : CodeGen) (v : list Variable_t) : CodeGen :=
  mkCodeGen (code cg) (code_cap cg) (data cg) (data_cap cg) v (var_count cg)
    (stack_size cg) (global_var_count cg) (global_data_pos cg) (funcs cg)
    (func_count cg) (fixups cg) (labels cg) (when_id cg) (loop_id cg)
    (cg_platform cg) (raw_mode cg) (in_function cg).

Definition set_var_count (cg : CodeGen) (v : Z) : CodeGen :=
  mkCodeGen (code cg) (code_cap cg) (data cg) (data_cap cg) (vars cg) v
    (stack_size cg) (global_var_count cg) (global_data_pos cg) (funcs cg)
    (func_count cg) (fixups cg) (labels cg) (when_id cg) (loop_id cg)
    (cg_platform cg) (raw_mode cg) (in_function cg).

Definition set_stack_size (cg : CodeGen) (v : Z) : CodeGen :=
  mkCodeGen (code cg) (code_cap cg) (data cg) (data_cap cg) (vars cg)
    (var_count cg) v (global_var_count cg) (global_data_pos cg) (funcs cg)
    (func_count cg) (fixups cg) (labels cg) (when_id cg) (loop_id cg)
    (cg_platform cg) (raw_mode cg) (in_function cg).

Definition set_globals (cg : CodeGen) (count dpos : Z) : CodeGen :=
  mkCodeGen (code cg) (code_cap cg) (data cg) (data_cap cg) (vars cg)
    (var_count cg) (stack_size cg) count dpos (funcs cg)
    (func_count cg) (fixups cg) (labels cg) (when_id cg) (loop_id cg)
    (cg_platform cg) (raw_mode cg) (in_function cg).

Definition set_funcs (cg : CodeGen) (v : list Function_t) : CodeGen :=
  mkCodeGen (code cg) (code_cap cg) (data cg) (data_cap cg) (vars cg)
    (var_count cg) (stack_size cg) (global_var_count cg) (global_data_pos cg)
    v (func_count cg) (fixups cg) (labels cg) (when_id cg) (loop_id cg)
    (cg_platform cg) (raw_mode cg) (in_function cg).

Definition set_func_count (cg : CodeGen) (v : Z) : CodeGen :=
  mkCodeGen (code cg) (code_cap cg) (data cg) (data_cap cg) (vars cg)
    (var_count cg) (stack_size cg) (global_var_count cg) (global_data_pos cg)
    (funcs cg) v (fixups cg) (labels cg) (when_id cg) (loop_id cg)
    (cg_platform cg) (raw_mode cg) (in_function cg).

Definition set_fixups (cg : CodeGen) (v : list (Z * list Z)) : CodeGen :=
  mkCodeGen (code cg) (code_cap cg) (data cg) (data_cap cg) (vars cg)
    (var_count cg) (stack_size cg) (global_var_count cg) (global_data_pos cg)
    (funcs cg) (func_count cg) v (labels cg) (when_id cg) (loop_id cg)
    (cg_platform cg) (raw_mode cg) (in_function cg).

Definition set_labels (cg : CodeGen) (v : list (list Z * Z)) : CodeGen :=
  mkCodeGen (code cg) (code_cap cg) (data cg) (data_cap cg) (vars cg)
    (var_count cg) (stack_size cg) (global_var_count cg) (global_data_pos cg)
    (funcs cg) (func_count cg) (fixups cg) v (when_id cg) (loop_id cg)
    (cg_platform cg) (raw_mode cg) (in_function cg).

Definition set_when_id (cg : CodeGen) (v : Z) : CodeGen :=
  mkCodeGen (code cg) (code_cap cg) (data cg) (data_cap cg) (vars cg)
    (var_count cg) (stack_size cg) (global_var_count cg) (global_data_pos cg)
    (funcs cg) (func_count cg) (fixups cg) (labels cg) v (loop_id cg)
    (cg_platform cg) (raw_mode cg) (in_function cg).

Definition set_loop_id (cg : CodeGen) (v : Z) : CodeGen :=
  mkCodeGen (code cg) (code_cap cg) (data cg) (data_cap cg) (vars cg)
    (var_count cg) (stack_size cg) (global_var_count cg) (global_data_pos cg)
    (funcs cg) (func_count cg) (fixups cg) (labels cg) (when_id cg) v
    (cg_platform cg) (raw_mode cg) (in_function cg).

Definition set_in_function (cg : CodeGen) (v : bool) : CodeGen :=
  mkCodeGen (code cg) (code_cap cg) (data cg) (data_cap cg) (vars cg)
    (var_count cg) (stack_size cg) (global_var_count cg) (global_data_pos cg)
    (funcs cg) (func_count cg) (fixups cg) (labels cg) (when_id cg)
    (loop_id cg) (cg_platform cg) (raw_mode cg) v.

(** [codegen_init]: both buffers empty, every count zero. *)
Definition codegen_init : CodeGen :=
  mkCodeGen [] MAX_CODE [] MAX_DATA [] 0 0 0 0 [] 0 [] [] 0 0 1 false false.

(* ================================================================== *)
(** ** Byte emission *)

(** The argument is converted to [uint8_t] at the call. *)
Definition emit_byte (cg : CodeGen) (b : Z) : CodeGen :=
  if code_pos cg <? code_cap cg then set_code cg (code cg ++ [to_u8 b]) else cg.

Definition emit_bytes (cg : CodeGen) (bytes : list Z) : CodeGen :=
  fold_left emit_byte bytes cg.

Definition emit_u32 (cg : CodeGen) (v : Z) : CodeGen :=
  let cg := emit_byte cg (Z.land v 255) in
  let cg := emit_byte cg (Z.land (Z.shiftr v 8) 255) in
  let cg := emit_byte cg (Z.land (Z.shiftr v 16) 255) in
  emit_byte cg (Z.land (Z.shiftr v 24) 255).

Definition emit_i32 (cg : CodeGen) (v : Z) : CodeGen := emit_u32 cg (to_u32 v).

Definition emit_u64 (cg : CodeGen) (v : Z) : CodeGen :=
  let cg := emit_u32 cg (Z.land v 4294967295) in
  emit_u32 cg (Z.land (Z.shiftr v 32) 4294967295).

(* ================================================================== *)
(** ** Labels and fixups *)

Definition add_label (cg : CodeGen) (name : list Z) : CodeGen :=
  if label_count cg <? MAX_LABELS
  then set_labels cg (labels cg ++ [(strncpy 63 name, code_pos cg)])
  else cg.

Definition add_fixup (cg : CodeGen) (label : list Z) : CodeGen :=
  let cg :=
    if fixup_count cg <? MAX_LABELS
    then set_fixups cg (fixups cg ++ [(code_pos cg, strncpy 63 label)])
    else cg in
  emit_u32 cg 0.

(** The four assignments of [resolve_fixups] to [code[fix_pos .. fix_pos+3]].
    [offset] is an [int32_t]; [>>] on it is an arithmetic shift. *)
Definition patch_i32 (c : list Z) (fix_pos offset : Z) : list Z :=
  let c := store c fix_pos (to_u8 (Z.land offset 255)) in
  let c := store c (fix_pos + 1) (to_u8 (Z.land (Z.shiftr offset 8) 255)) in
  let c := store c (fix_pos + 2) (to_u8 (Z.land (Z.shiftr offset 16) 255)) in
  store c (fix_pos + 3) (to_u8 (Z.land (Z.shiftr offset 24) 255)).

(** The inner loop of [resolve_fixups]: scan the labels from index 0, patch
    at the first one whose name is the fixup's and stop. *)
Fixpoint resolve_scan (ls : list (list Z * Z)) (fx : Z * list Z)
    (cg : CodeGen) : CodeGen :=
  match ls with
  | [] => cg
  | (name, target) :: ls' =>
      if name_eqb (snd fx) name
      then
        let fix_pos := fst fx in
        let offset := to_i32 (to_u64 (target - fix_pos - 4)) in
        set_code cg (patch_i32 (code cg) fix_pos offset)
      else resolve_scan ls' fx cg
  end.

Definition resolve_fixups (cg : CodeGen) : CodeGen :=
  fold_left (fun cg fx => resolve_scan (labels cg) fx cg) (fixups cg) cg.

(* ================================================================== *)
(** ** Variable and function lookup *)

(** [find_var] scans [vars[var_count-1]] down to [vars[0]]. *)
Fixpoint find_var_from (vs : list Variable_t) (n : nat) (name : list Z)
    : option Variable_t :=
  match n with
  | O => None
  | S i =>
      match nth_error vs i with
      | Some v =>
          if name_eqb (var_name v) name then Some v
          else find_var_from vs i name
      | None => find_var_from vs i name
      end
  end.

Definition find_var (cg : CodeGen) (name : list Z) : option Variable_t :=
  find_var_from (vars cg) (Z.to_nat (var_count cg)) name.

Definition add_var (cg : CodeGen) (name : list Z) (type : VarType)
    : option Variable_t * CodeGen :=
  if var_count cg >=? MAX_VARS then (None, cg)
  else
    let idx := var_count cg in
    let cg := set_var_count cg (idx + 1) in
    if in_function cg then
      let cg := set_stack_size cg (stack_size cg + 8) in
      let v := mkVariable (strncpy 255 name) type 0 (- stack_size cg)
                 false false 0 in
      (Some v, set_vars cg (array_set (vars cg) idx v))
    else
      let v := mkVariable (strncpy 255 name) type 0 0 false true
                 (to_u64 (0x600000 + global_data_pos cg)) in
      let cg := set_globals cg (global_var_count cg + 1)
                  (global_data_pos cg + 8) in
      (Some v, set_vars cg (array_set (vars cg) idx v)).

Fixpoint find_func_from (fs : list Function_t) (n : nat) (name : list Z)
    : option Function_t :=
  match n, fs with
  | S n', f :: fs' =>
      if name_eqb (fn_name f) name then Some f else find_func_from fs' n' name
  | _, _ => None
  end.

Definition find_func (cg : CodeGen) (name : list Z) : option Function_t :=
  find_func_from (funcs cg) (Z.to_nat (func_count cg)) name.

(* ================================================================== *)
(** ** x86-64 instruction generation *)

Definition gen_push_rbp (cg : CodeGen) := emit_byte cg 0x55.
Definition gen_pop_rbp (cg : CodeGen) := emit_byte cg 0x5d.
Definition gen_push_rax (cg : CodeGen) := emit_byte cg 0x50.
Definition gen_pop_rax (cg : CodeGen) := emit_byte cg 0x58.
Definition gen_push_rbx (cg : CodeGen) := emit_byte cg 0x53.
Definition gen_pop_rbx (cg : CodeGen) := emit_byte cg 0x5b.

Definition gen_mov_rbp_rsp (cg : CodeGen) := emit_bytes cg [0x48; 0x89; 0xe5].
Definition gen_mov_rsp_rbp (cg : CodeGen) := emit_bytes cg [0x48; 0x89; 0xec].
Definition gen_ret (cg : CodeGen) := emit_byte cg 0xc3.
Definition gen_syscall (cg : CodeGen) := emit_bytes cg [0x0f; 0x05].
Definition gen_pause (cg : CodeGen) := emit_bytes cg [0xf3; 0x90].
Definition gen_nop (cg : CodeGen) := emit_byte cg 0x90.

Definition gen_sub_rsp (cg : CodeGen) (n : Z) :=
  emit_i32 (emit_bytes cg [0x48; 0x81; 0xec]) n.

Definition gen_add_rsp (cg : CodeGen) (n : Z) :=
  emit_i32 (emit_bytes cg [0x48; 0x81; 0xc4]) n.

Definition gen_mov_rax_imm (cg : CodeGen) (v : Z) :=
  emit_u64 (emit_bytes cg [0x48; 0xb8]) (to_u64 v).

Definition gen_mov_rdi_imm (cg : CodeGen) (v : Z) :=
  emit_u64 (emit_bytes cg [0x48; 0xbf]) (to_u64 v).

Definition gen_mov_rsi_imm (cg : CodeGen) (v : Z) :=
  emit_u64 (emit_bytes cg [0x48; 0xbe]) (to_u64 v).

Definition gen_mov_rdx_imm (cg : CodeGen) (v : Z) :=
  emit_u64 (emit_bytes cg [0x48; 0xba]) (to_u64 v).

Definition gen_mov_rdi_rax (cg : CodeGen) := emit_bytes cg [0x48; 0x89; 0xc7].
Definition gen_mov_rsi_rax (cg : CodeGen) := emit_bytes cg [0x48; 0x89; 0xc6].
Definition gen_mov_rdx_rax (cg : CodeGen) := emit_bytes cg [0x48; 0x89; 0xc2].

Definition gen_mov_rax_rbp_off (cg : CodeGen) (off : Z) :=
  emit_i32 (emit_bytes cg [0x48; 0x8b; 0x85]) off.

Definition gen_mov_rbp_off_rax (cg : CodeGen) (off : Z) :=
  emit_i32 (emit_bytes cg [0x48; 0x89; 0x85]) off.

(** [movabs rax, addr; mov rax, [rax]] *)
Definition gen_mov_rax_abs (cg : CodeGen) (addr : Z) :=
  let cg := emit_bytes cg [0x48; 0xb8] in
  let cg := emit_u64 cg addr in
  emit_bytes cg [0x48; 0x8b; 0x00].

(** [push rax; movabs rbx, addr; pop rax; mov [rbx], rax] *)
Definition gen_mov_abs_rax (cg : CodeGen) (addr : Z) :=
  let cg := emit_byte cg 0x50 in
  let cg := emit_bytes cg [0x48; 0xbb] in
  let cg := emit_u64 cg addr in
  let cg := emit_byte cg 0x58 in
  emit_bytes cg [0x48; 0x89; 0x03].

Definition gen_load_var (cg : CodeGen) (v : Variable_t) :=
  if is_global v then gen_mov_rax_abs cg (global_addr v)
  else gen_mov_rax_rbp_off cg (stack_offset v).

Definition gen_store_var (cg : CodeGen) (v : Variable_t) :=
  if is_global v then gen_mov_abs_rax cg (global_addr v)
  else gen_mov_rbp_off_rax cg (stack_offset v).

Definition gen_mul_rax_rbx (cg : CodeGen) :=
  emit_bytes cg [0x48; 0x0f; 0xaf; 0xc3].

Definition gen_div_rax_rbx (cg : CodeGen) :=
  emit_bytes (emit_bytes cg [0x48; 0x99]) [0x48; 0xf7; 0xfb].

Definition gen_test_rax_rax (cg : CodeGen) := emit_bytes cg [0x48; 0x85; 0xc0].

Definition gen_je (cg : CodeGen) (label : list Z) :=
  add_fixup (emit_bytes cg [0x0f; 0x84]) label.

Definition gen_jne (cg : CodeGen) (label : list Z) :=
  add_fixup (emit_bytes cg [0x0f; 0x85]) label.

Definition gen_jmp (cg : CodeGen) (label : list Z) :=
  add_fixup (emit_byte cg 0xe9) label.

Definition gen_call (cg : CodeGen) (label : list Z) :=
  add_fixup (emit_byte cg 0xe8) label.

(** [code] is an [int], widened to [int64_t] at the call. *)
Definition gen_exit (cg : CodeGen) (code : Z) :=
  let cg := gen_mov_rax_imm cg 60 in
  let cg := gen_mov_rdi_imm cg code in
  gen_syscall cg.

Definition gen_exit_rax (cg : CodeGen) :=
  let cg := emit_bytes cg [0x48; 0x89; 0xc7] in
  let cg := gen_mov_rax_imm cg 60 in
  gen_syscall cg.

Definition gen_prologue (cg : CodeGen) := gen_mov_rbp_rsp (gen_push_rbp cg).

Definition gen_epilogue (cg : CodeGen) :=
  gen_ret (gen_pop_rbp (gen_mov_rsp_rbp cg)).

Definition gen_event_loop (cg : CodeGen) :=
  emit_bytes (gen_pause cg) [0xeb; 0xfc].

(* ================================================================== *)
(** ** ELF generator *)

(** The [n] low bytes of [v], least significant first: what [memcpy] reads
    from a little-endian integer object. *)
Definition le_bytes (n : nat) (v : Z) : list Z :=
  map (fun i => Z.land (Z.shiftr v (8 * Z.of_nat i)) 255) (seq 0 n).

Fixpoint memcpy (buf : list Z) (off : Z) (src : list Z) : list Z :=
  match src with
  | [] => buf
  | b :: rest => memcpy (store buf off b) (off + 1) rest
  end.

(** A file as [fopen]/[fwrite]/[chmod] leave it: its bytes, and the mode
    when one was set explicitly. *)
Record File := mkFile { f_bytes : list Z; f_mode : option Z }.

Definition elf_ehdr : list Z :=
  let base := 0x400000 in
  let entry := base + 120 in
  let ehdr := repeat 0 64 in
  let ehdr := memcpy ehdr 0 [0x7f; 69; 76; 70] in
  let ehdr := memcpy ehdr 4 [2; 1; 1] in
  let ehdr := store ehdr 16 2 in
  let ehdr := store ehdr 18 0x3e in
  let ehdr := store ehdr 20 1 in
  let ehdr := memcpy ehdr 24 (le_bytes 8 entry) in
  let phoff := 64 in
  let ehdr := memcpy ehdr 32 (le_bytes 8 phoff) in
  let ehdr := store ehdr 52 64 in
  let ehdr := store ehdr 54 56 in
  store ehdr 56 1.

Definition elf_phdr (cg : CodeGen) : list Z :=
  let base := 0x400000 in
  let total_size := to_u64 (code_pos cg + data_pos cg) in
  let phdr := repeat 0 56 in
  let p_type := 1 in
  let p_flags := 7 in
  let phdr := memcpy phdr 0 (le_bytes 4 p_type) in
  let phdr := memcpy phdr 4 (le_bytes 4 p_flags) in
  let file_size := to_u64 (120 + total_size) in
  let global_size :=
    if global_data_pos cg >? 0 then global_data_pos cg else 0x1000 in
  let mem_size := to_u64 (0x600000 - base + global_size + 0x10000) in
  let phdr := memcpy phdr 16 (le_bytes 8 base) in
  let phdr := memcpy phdr 24 (le_bytes 8 base) in
  let phdr := memcpy phdr 32 (le_bytes 8 file_size) in
  let phdr := memcpy phdr 40 (le_bytes 8 mem_size) in
  let align := 0x1000 in
  memcpy phdr 48 (le_bytes 8 align).

(** [write_elf]; [fopen_ok] tells whether [fopen(filename, "wb")] succeeds.
    The result is the file left behind, [None] when nothing is written. *)
Definition write_elf (cg : CodeGen) (fopen_ok : bool) : option File :=
  if negb fopen_ok then None
  else Some (mkFile (elf_ehdr ++ elf_phdr cg ++ code cg ++ data cg)
               (Some 493)).

Definition write_raw (cg : CodeGen) (fopen_ok : bool) : option File :=
  if negb fopen_ok then None else Some (mkFile (code cg) None).

(* ================================================================== *)
(** ** Unified field, tile manager, fate scheduler, platform

    The compile-time rule subsystem, as far as [compiler_init], [compile]
    and the statement handlers reach it. *)

(** [(double)z] for an integer below [2^63] in absolute value. *)
Definition double_of_Z (z : Z) : float :=
  if z <? 0 then PrimFloat.opp (PrimFloat.of_uint63 (Uint63.of_Z (- z)))
  else PrimFloat.of_uint63 (Uint63.of_Z z).

Definition fmin (x y : float) : float :=
  if PrimFloat.is_nan x then y
  else if PrimFloat.is_nan y then x
  else if PrimFloat.ltb x y then x else y.

Record UnifiedField := mkUnifiedField {
  uf_i : float;
  uf_e : float;
  uf_r : float
}.

Definition unified_init : UnifiedField :=
  mkUnifiedField 0.5%float 0.5%float 0.5%float.

Record MemoryPool := mkMemoryPool {
  pool_base : Z;
  pool_size : Z;
  pool_used : Z;
  pool_purpose : list Z
}.

(** [tile->unified] points at the compiler's own [unified] field; no modelled
    function reads through it. *)
Record TileManager := mkTileManager {
  pools : list MemoryPool
}.

Definition pool_count (t : TileManager) : Z := zlength (pools t).

Definition tile_init : TileManager := mkTileManager [].

Definition tile_add_pool (t : TileManager) (base size : Z) (purpose : list Z)
    : TileManager :=
  if pool_count t >=? MAX_POOLS then t
  else mkTileManager
         (pools t ++ [mkMemoryPool base size 0 (strncpy 31 purpose)]).

Definition tile_total_used (t : TileManager) : Z :=
  fold_left (fun sum p => to_u64 (sum + pool_used p)) (pools t) 0.

Definition tile_ratio (t : TileManager) : float :=
  let total := fold_left (fun s p => to_u64 (s + pool_size p)) (pools t) 0 in
  let used := fold_left (fun s p => to_u64 (s + pool_used p)) (pools t) 0 in
  if total >? 0 then PrimFloat.div (double_of_Z used) (double_of_Z total)
  else 0%float.

(** No adapter is ever registered ([fate_register_adapter] has no caller), so
    the adapter arrays are left out and [fate_adapt] runs none. *)
Record FateScheduler := mkFateScheduler {
  fate_on : bool;
  id_counter : Z;
  usage : float;
  gain : float;
  prev_gain : float;
  pattern_count : Z;
  field : UnifiedField;
  learned : list (list Z * float);
  marginal_threshold : float
}.

Definition fate_init : FateScheduler :=
  mkFateScheduler true 0 0%float 0%float 0%float 0 unified_init []
    0.05%float.

Definition set_fate_on (f : FateScheduler) (v : bool) : FateScheduler :=
  mkFateScheduler v (id_counter f) (usage f) (gain f) (prev_gain f)
    (pattern_count f) (field f) (learned f) (marginal_threshold f).

Definition set_id_counter (f : FateScheduler) (v : Z) : FateScheduler :=
  mkFateScheduler (fate_on f) v (usage f) (gain f) (prev_gain f)
    (pattern_count f) (field f) (learned f) (marginal_threshold f).

Definition set_observed (f : FateScheduler) (u : float) (n : Z)
    : FateScheduler :=
  mkFateScheduler (fate_on f) (id_counter f) u (gain f) (prev_gain f) n
    (field f) (learned f) (marginal_threshold f).

Definition set_prev_gain (f : FateScheduler) (v : float) : FateScheduler :=
  mkFateScheduler (fate_on f) (id_counter f) (usage f) (gain f) v
    (pattern_count f) (field f) (learned f) (marginal_threshold f).

Definition set_field (f : FateScheduler) (v : UnifiedField) : FateScheduler :=
  mkFateScheduler (fate_on f) (id_counter f) (usage f) (gain f) (prev_gain f)
    (pattern_count f) v (learned f) (marginal_threshold f).

Definition set_learned (f : FateScheduler) (v : list (list Z * float))
    : FateScheduler :=
  mkFateScheduler (fate_on f) (id_counter f) (usage f) (gain f) (prev_gain f)
    (pattern_count f) (field f) v (marginal_threshold f).

Definition set_marginal_threshold (f : FateScheduler) (v : float)
    : FateScheduler :=
  mkFateScheduler (fate_on f) (id_counter f) (usage f) (gain f) (prev_gain f)
    (pattern_count f) (field f) (learned f) v.

(** [++fate->id_counter] *)
Definition fate_next_id (f : FateScheduler) : Z * FateScheduler :=
  let n := to_i32 (id_counter f + 1) in (n, set_id_counter f n).

Fixpoint learn_existing (l : list (list Z * float)) (key : list Z)
    (value : float) : option (list (list Z * float)) :=
  match l with
  | [] => None
  | (k, v) :: rest =>
      if name_eqb k key then Some ((k, value) :: rest)
      else match learn_existing rest key value with
           | Some rest' => Some ((k, v) :: rest')
           | None => None
           end
  end.

Definition fate_learn (f : FateScheduler) (key : list Z) (value : float)
    : FateScheduler :=
  match learn_existing (learned f) key value with
  | Some l => set_learned f l
  | None =>
      if zlength (learned f) <? 256
      then set_learned f (learned f ++ [(strncpy 63 key, value)])
      else f
  end.

Definition fate_observe (f : FateScheduler) (t : TileManager)
    : FateScheduler :=
  if negb (fate_on f) then f
  else set_observed f (tile_ratio t) (to_i32 (pattern_count f + 1)).

Definition fate_adapt (f : FateScheduler) : FateScheduler :=
  if negb (fate_on f) then f
  else
    let f :=
      if PrimFloat.ltb 0.7%float (usage f)
      then set_field f
             (mkUnifiedField (uf_i (field f))
                (fmin 1%float (PrimFloat.add (uf_e (field f)) 0.1%float))
                (uf_r (field f)))
      else f in
    if pattern_count f >? 100
    then set_field f
           (mkUnifiedField (uf_i (field f)) (uf_e (field f))
              (fmin 1%float (PrimFloat.add (uf_r (field f)) 0.05%float)))
    else f.

Definition fate_should_collapse (f : FateScheduler) : bool * FateScheduler :=
  let delta := PrimFloat.sub (gain f) (prev_gain f) in
  (PrimFloat.ltb delta (marginal_threshold f), set_prev_gain f (gain f)).

Definition fate_collapse (f : FateScheduler) : FateScheduler :=
  let f := fate_learn f (str "static:i") (uf_i (field f)) in
  let f := fate_learn f (str "static:e") (uf_e (field f)) in
  let f := fate_learn f (str "static:r") (uf_r (field f)) in
  set_fate_on f false.

Definition fate_tick (f : FateScheduler) (t : TileManager) : FateScheduler :=
  if negb (fate_on f) then f
  else
    let f := fate_observe f t in
    let f := fate_adapt f in
    let '(collapse, f) := fate_should_collapse f in
    if collapse then fate_collapse f else f.

Record Platform := mkPlatform {
  platform_id : Z;
  syscall_base : Z;
  probed : bool
}.

Definition platform_init : Platform := mkPlatform 0 0 false.

(** Built for Linux: the probed syscall base is 0. *)
Definition platform_probe (p : Platform) (f : FateScheduler)
    : Platform * FateScheduler :=
  if probed p then (p, f)
  else
    let '(id, f) := fate_next_id f in
    let f := fate_learn f (str "platform.id") (double_of_Z id) in
    let f := fate_learn f (str "platform.syscall_base") (double_of_Z 0) in
    (mkPlatform id 0 true, f).

Definition compat_probe (f : FateScheduler) : FateScheduler :=
  let f := fate_learn f (str "probe.display") 1%float in
  let f := fate_learn f (str "probe.input") 1%float in
  let f := fate_learn f (str "probe.storage") 1%float in
  let f := fate_learn f (str "probe.network") 1%float in
  fate_learn f (str "probe.audio") 1%float.

(* ================================================================== *)
(** ** Compiler state

    The [bridge] and [compat] records are initialised once and never read
    or written again; they are left out. *)

Record Compiler := mkCompiler {
  source : list Z;
  pos : Z;
  len : Z;
  fate_mode : bool;
  loop_depth : Z;
  loop_labels : list (list Z * list Z);
  unified : UnifiedField;
  tile : TileManager;
  fate : FateScheduler;
  codegen : CodeGen;
  platform : Platform;
  current_func : option Z;
  base_var_count : Z
}.

Definition set_pos (c : Compiler) (v : Z) : Compiler :=
  mkCompiler (source c) v (len c) (fate_mode c) (loop_depth c)
    (loop_labels c) (unified c) (tile c) (fate c) (codegen c) (platform c)
    (current_func c) (base_var_count c).

Definition set_fate_mode (c : Compiler) (v : bool) : Compiler :=
  mkCompiler (source c) (pos c) (len c) v (loop_depth c)
    (loop_labels c) (unified c) (tile c) (fate c) (codegen c) (platform c)
    (current_func c) (base_var_count c).

Definition set_loop_depth (c : Compiler) (v : Z) : Compiler :=
  mkCompiler (source c) (pos c) (len c) (fate_mode c) v
    (loop_labels c) (unified c) (tile c) (fate c) (codegen c) (platform c)
    (current_func c) (base_var_count c).

Definition set_loop_labels (c : Compiler) (v : list (list Z * list Z))
    : Compiler :=
  mkCompiler (source c) (pos c) (len c) (fate_mode c) (loop_depth c)
    v (unified c) (tile c) (fate c) (codegen c) (platform c)
    (current_func c) (base_var_count c).

Definition set_unified (c : Compiler) (v : UnifiedField) : Compiler :=
  mkCompiler (source c) (pos c) (len c) (fate_mode c) (loop_depth c)
    (loop_labels c) v (tile c) (fate c) (codegen c) (platform c)
    (current_func c) (base_var_count c).

Definition set_tile (c : Compiler) (v : TileManager) : Compiler :=
  mkCompiler (source c) (pos c) (len c) (fate_mode c) (loop_depth c)
    (loop_labels c) (unified c) v (fate c) (codegen c) (platform c)
    (current_func c) (base_var_count c).

Definition set_fate (c : Compiler) (v : FateScheduler) : Compiler :=
  mkCompiler (source c) (pos c) (len c) (fate_mode c) (loop_depth c)
    (loop_labels c) (unified c) (tile c) v (codegen c) (platform c)
    (current_func c) (base_var_count c).

Definition set_codegen (c : Compiler) (v : CodeGen) : Compiler :=
  mkCompiler (source c) (pos c) (len c) (fate_mode c) (loop_depth c)
    (loop_labels c) (unified c) (tile c) (fate c) v (platform c)
    (current_func c) (base_var_count c).

Definition set_current_func (c : Compiler) (v : option Z) : Compiler :=
  mkCompiler (source c) (pos c) (len c) (fate_mode c) (loop_depth c)
    (loop_labels c) (unified c) (tile c) (fate c) (codegen c) (platform c)
    v (base_var_count c).

(** [compiler_init]; the source text ends at its first NUL. *)
Definition compiler_init (text : list Z) : Compiler :=
  let src := c_str text in
  let fate := fate_init in
  let '(plat, fate) := platform_probe platform_init fate in
  let fate := compat_probe fate in
  mkCompiler src 0 (zlength src) true 0 [] unified_init tile_init fate
    codegen_init plat None 0.

(* ================================================================== *)
(** ** Parsing helpers

    The helpers read [c->source] and [c->len] and move [c->pos] only; they
    are given here as functions of the position.  A [while] loop that
    consumes a character per round gets the characters left as its bound. *)

Section Lexer.

Variable src : list Z.
Variable len : Z.

Definition peek_at (p : Z) : Z :=
  if p <? len then nth (Z.to_nat p) src 0 else 0.

Definition peek_n_at (p n : Z) : Z :=
  if p + n <? len then nth (Z.to_nat (p + n)) src 0 else 0.

(** The position after [advance(c)]. *)
Definition advance_pos (p : Z) : Z := if p <? len then p + 1 else p.

Definition left_at (p : Z) : nat := Z.to_nat (len - p).

(** [while (c->pos < c->len && peek(c) != '\n') advance(c);] *)
Fixpoint skip_to_eol (fuel : nat) (p : Z) : Z :=
  match fuel with
  | O => p
  | S fuel' =>
      if (p <? len) && negb (peek_at p =? 10)
      then skip_to_eol fuel' (advance_pos p)
      else p
  end.

Definition skip_line_at (p : Z) : Z :=
  let p := skip_to_eol (left_at p) p in
  if peek_at p =? 10 then advance_pos p else p.

Fixpoint skip_whitespace_loop (fuel : nat) (p : Z) : Z :=
  match fuel with
  | O => p
  | S fuel' =>
      if p <? len then
        let ch := peek_at p in
        if (ch =? 32) || (ch =? 9) || (ch =? 10) || (ch =? 13)
        then skip_whitespace_loop fuel' (advance_pos p)
        else if (ch =? 47) && (peek_n_at p 1 =? 47) then
          let p := advance_pos (advance_pos p) in
          let p := skip_to_eol (left_at p) p in
          let p := if peek_at p =? 10 then advance_pos p else p in
          skip_whitespace_loop fuel' p
        else p
      else p
  end.

Definition skip_whitespace_at (p : Z) : Z :=
  skip_whitespace_loop (left_at p) p.

Fixpoint starts_with (l s : list Z) : bool :=
  match s, l with
  | [], _ => true
  | x :: s', y :: l' => (x =? y) && starts_with l' s'
  | _ :: _, [] => false
  end.

(** [match(c, str)] *)
Definition match_at (p : Z) (s : list Z) : bool :=
  if p + zlength s >? len then false
  else starts_with (skipn (Z.to_nat p) src) s.

Definition is_ident_start (ch : Z) : bool := isalpha ch || (ch =? 95).
Definition is_ident_char (ch : Z) : bool :=
  isalnum ch || (ch =? 95) || (ch =? 46).

Fixpoint parse_ident_loop (fuel : nat) (p : Z) (buf : list Z)
    : list Z * Z :=
  match fuel with
  | O => (buf, p)
  | S fuel' =>
      if (p <? len) && is_ident_char (peek_at p)
         && (zlength buf <? MAX_IDENT - 1)
      then parse_ident_loop fuel' (advance_pos p) (buf ++ [peek_at p])
      else (buf, p)
  end.

Definition parse_ident_at (p : Z) : list Z * Z :=
  parse_ident_loop (left_at p) p [].

Definition hexval (ch : Z) : option Z :=
  if isdigit ch then Some (ch - 48)
  else if (97 <=? ch) && (ch <=? 102) then Some (ch - 97 + 10)
  else if (65 <=? ch) && (ch <=? 70) then Some (ch - 65 + 10)
  else None.

Fixpoint skip_space (l : list Z) : list Z :=
  match l with
  | ch :: rest => if isspace ch then skip_space rest else l
  | [] => []
  end.

Fixpoint hex_digits (l : list Z) (acc : Z) : Z :=
  match l with
  | ch :: rest =>
      match hexval ch with
      | Some d => hex_digits rest (acc * 16 + d)
      | None => acc
      end
  | [] => acc
  end.

(** [strtol(hex, NULL, 16)] on the two-character buffer of [parse_string]:
    leading white space, an optional sign, then hexadecimal digits.  (A [0x]
    prefix needs a digit after it, which two characters cannot hold.) *)
Definition strtol16 (l : list Z) : Z :=
  let l := skip_space l in
  let '(neg, l) :=
    match l with
    | ch :: rest =>
        if ch =? 45 then (true, rest)
        else if ch =? 43 then (false, rest) else (false, l)
    | [] => (false, l)
    end in
  let v := hex_digits l 0 in
  if neg then - v else v.

(** The body of the [while] loop of [parse_string]; the characters of the
    buffer are kept as bytes. *)
Fixpoint parse_string_loop (fuel : nat) (p : Z) (buf : list Z)
    : list Z * Z :=
  match fuel with
  | O => (buf, p)
  | S fuel' =>
      if (p <? len) && negb (peek_at p =? 34) && (zlength buf <? 4095) then
        let ch := peek_at p in
        let p := advance_pos p in
        if (ch =? 92) && (p <? len) then
          let esc := peek_at p in
          let p := advance_pos p in
          if esc =? 110 then parse_string_loop fuel' p (buf ++ [10])
          else if esc =? 116 then parse_string_loop fuel' p (buf ++ [9])
          else if esc =? 114 then parse_string_loop fuel' p (buf ++ [13])
          else if esc =? 48 then parse_string_loop fuel' p (buf ++ [0])
          else if (esc =? 120) && (p + 2 <=? len) then
            let h1 := peek_at p in
            let p := advance_pos p in
            let h2 := peek_at p in
            let p := advance_pos p in
            parse_string_loop fuel' p (buf ++ [to_u8 (strtol16 [h1; h2])])
          else parse_string_loop fuel' p (buf ++ [esc])
        else parse_string_loop fuel' p (buf ++ [ch])
      else (buf, p)
  end.

(** [parse_string]: the buffer contents before the closing NUL that the
    function appends, and the position reached. *)
Definition parse_string_at (p : Z) : list Z * Z :=
  let p := if peek_at p =? 34 then advance_pos p else p in
  let '(buf, p) := parse_string_loop (left_at p) p [] in
  let p := if peek_at p =? 34 then advance_pos p else p in
  (buf, p).

(** [(int64_t)x] for a [double]: truncation toward zero; outside the range
    of [int64_t] (and for NaN) the x86-64 conversion yields [INT64_MIN]. *)
Definition int64_of_double (x : float) : Z :=
  match Prim2SF x with
  | S754_zero _ => 0
  | S754_finite s m e =>
      let mag := if e <? 0 then Z.pos m / 2 ^ (- e) else Z.pos m * 2 ^ e in
      let v := if s then - mag else mag in
      if (- 2 ^ 63 <=? v) && (v <? 2 ^ 63) then v else - 2 ^ 63
  | _ => - 2 ^ 63
  end.

Fixpoint hex_loop (fuel : nat) (p : Z) (num : Z) : Z * Z :=
  match fuel with
  | O => (num, p)
  | S fuel' =>
      if (p <? len) && isxdigit (peek_at p) then
        let ch := peek_at p in
        let p := advance_pos p in
        if (48 <=? ch) && (ch <=? 57)
        then hex_loop fuel' p (to_i64 (num * 16 + (ch - 48)))
        else if (97 <=? ch) && (ch <=? 102)
        then hex_loop fuel' p (to_i64 (num * 16 + (ch - 97 + 10)))
        else if (65 <=? ch) && (ch <=? 70)
        then hex_loop fuel' p (to_i64 (num * 16 + (ch - 65 + 10)))
        else hex_loop fuel' p num
      else (num, p)
  end.

Fixpoint dec_loop (fuel : nat) (p : Z) (num : Z) : Z * Z :=
  match fuel with
  | O => (num, p)
  | S fuel' =>
      if (p <? len) && isdigit (peek_at p)
      then dec_loop fuel' (advance_pos p) (to_i64 (num * 10 + (peek_at p - 48)))
      else (num, p)
  end.

(** The loop over the decimal part: [num += (int64_t)(digit * frac)]. *)
Fixpoint frac_loop (fuel : nat) (p : Z) (num : Z) (frac : float) : Z * Z :=
  match fuel with
  | O => (num, p)
  | S fuel' =>
      if (p <? len) && isdigit (peek_at p) then
        let d := peek_at p - 48 in
        let num :=
          to_i64 (num + int64_of_double (PrimFloat.mul (double_of_Z d) frac)) in
        frac_loop fuel' (advance_pos p) num (PrimFloat.mul frac 0.1%float)
      else (num, p)
  end.

(** [parse_number]; signed overflow of [num] wraps. *)
Definition parse_number_at (p : Z) : Z * Z :=
  let '(neg, p) :=
    if peek_at p =? 45 then (true, advance_pos p) else (false, p) in
  let '(num, p) :=
    if (peek_at p =? 48) && (peek_n_at p 1 =? 120)
    then let p := advance_pos (advance_pos p) in hex_loop (left_at p) p 0
    else dec_loop (left_at p) p 0 in
  let '(num, p) :=
    if peek_at p =? 46
    then let p := advance_pos p in frac_loop (left_at p) p num 0.1%float
    else (num, p) in
  (if neg then to_i64 (- num) else num, p).

(** The brace-matching loop shared by [compile_fn_def] and
    [skip_block_decl]; string literals and [#] comments are stepped over. *)
Fixpoint skip_string_body (fuel : nat) (p : Z) : Z :=
  match fuel with
  | O => p
  | S fuel' =>
      if (p <? len) && negb (peek_at p =? 34) then
        let p := if peek_at p =? 92 then advance_pos p else p in
        skip_string_body fuel' (advance_pos p)
      else p
  end.

Fixpoint skip_braces (fuel : nat) (p : Z) (depth : Z) : Z :=
  match fuel with
  | O => p
  | S fuel' =>
      if (p <? len) && (depth >? 0) then
        let ch := peek_at p in
        if ch =? 123 then skip_braces fuel' (advance_pos p) (depth + 1)
        else if ch =? 125 then skip_braces fuel' (advance_pos p) (depth - 1)
        else if ch =? 34 then
          let p := advance_pos p in
          let p := skip_string_body (left_at p) p in
          skip_braces fuel' (advance_pos p) depth
        else if ch =? 35 then
          let p := skip_to_eol (left_at p) p in
          skip_braces fuel' (advance_pos p) depth
        else skip_braces fuel' (advance_pos p) depth
      else p
  end.

(** [while (c->pos < c->len && peek(c) != '{') advance(c);] *)
Fixpoint skip_to_brace (fuel : nat) (p : Z) : Z :=
  match fuel with
  | O => p
  | S fuel' =>
      if (p <? len) && negb (peek_at p =? 123)
      then skip_to_brace fuel' (advance_pos p)
      else p
  end.

(** [while (peek(c) != ')' && c->pos < c->len) advance(c);] *)
Fixpoint skip_to_rparen (fuel : nat) (p : Z) : Z :=
  match fuel with
  | O => p
  | S fuel' =>
      if negb (peek_at p =? 41) && (p <? len)
      then skip_to_rparen fuel' (advance_pos p)
      else p
  end.

Definition skip_block_decl_at (p : Z) : Z :=
  let p := skip_to_brace (left_at p) p in
  if peek_at p =? 123 then
    let p := advance_pos p in
    skip_braces (left_at p) p 1
  else p.

End Lexer.

(* ================================================================== *)
(** ** The compiler monad

    Every compiling function takes the [Compiler] and may change it.  The
    functions that recurse through the source text, or loop without a bound
    on their rounds, take a [fuel] budget; [None] means the budget ran out. *)

Definition M (A : Type) : Type := Compiler -> option (A * Compiler).

Definition ret {A} (a : A) : M A := fun c => Some (a, c).

Definition bind {A B} (m : M A) (k : A -> M B) : M B :=
  fun c => match m c with
           | Some (a, c') => k a c'
           | None => None
           end.

Definition out_of_fuel {A} : M A := fun _ => None.

Declare Scope compiler_scope.
Delimit Scope compiler_scope with compiler.
Notation "x <- m ;; k" := (bind m (fun x => k))
  (at level 61, m at next level, right associativity) : compiler_scope.
Notation "m ;; k" := (bind m (fun _ => k))
  (at level 61, right associativity) : compiler_scope.
Open Scope compiler_scope.

(** A parsing helper run at the compiler's position. *)
Definition lex {A} (f : list Z -> Z -> Z -> A * Z) : M A :=
  fun c => let '(a, p) := f (source c) (len c) (pos c) in Some (a, set_pos c p).

(** A code generator call [f(&c->codegen, ...)]. *)
Definition cg (f : CodeGen -> CodeGen) : M unit :=
  fun c => Some (tt, set_codegen c (f (codegen c))).

(** A read of the code generator state. *)
Definition cg_get {A} (f : CodeGen -> A) : M A :=
  fun c => Some (f (codegen c), c).

Definition peek : M Z := lex (fun s l p => (peek_at s l p, p)).
Definition peek_n (n : Z) : M Z := lex (fun s l p => (peek_n_at s l p n, p)).
Definition advance : M Z :=
  lex (fun s l p => (peek_at s l p, advance_pos l p)).
Definition skip_whitespace : M unit :=
  lex (fun s l p => (tt, skip_whitespace_at s l p)).
Definition skip_line : M unit := lex (fun s l p => (tt, skip_line_at s l p)).
Definition match_ (t : list Z) : M bool :=
  lex (fun s l p => (match_at s l p t, p)).
Definition parse_ident : M (list Z) := lex parse_ident_at.
Definition parse_string : M (list Z) := lex parse_string_at.
Definition parse_number : M Z := lex parse_number_at.
Definition skip_block_decl : M unit :=
  lex (fun s l p => (tt, skip_block_decl_at s l p)).

(** [c->pos += n] *)
Definition pos_add (n : Z) : M unit := lex (fun _ _ p => (tt, p + n)).
Definition get_pos : M Z := lex (fun _ _ p => (p, p)).
Definition put_pos (p : Z) : M unit := lex (fun _ _ _ => (tt, p)).
(** [c->pos < c->len] *)
Definition in_source : M bool := lex (fun _ l p => (p <? l, p)).

(** [if (peek(c) == ch) advance(c);] *)
Definition accept (ch : Z) : M unit :=
  p <- peek ;; if p =? ch then advance ;; ret tt else ret tt.

Definition emit (bytes : list Z) : M unit := cg (fun g => emit_bytes g bytes).

Definition ifM {A} (b : M bool) (m1 m2 : M A) : M A :=
  t <- b ;; if t then m1 else m2.

(* ================================================================== *)
(** ** Expression compilation *)

(** [read(0, rsp, 1)] over a 16-byte scratch area, the byte zero-extended. *)
Definition gen_getchar (g : CodeGen) : CodeGen :=
  let g := gen_sub_rsp g 16 in
  let g := gen_mov_rax_imm g 0 in
  let g := gen_mov_rdi_imm g 0 in
  let g := emit_bytes g [0x48; 0x8d; 0x34; 0x24] in
  let g := gen_mov_rdx_imm g 1 in
  let g := gen_syscall g in
  let g := emit_bytes g [0x48; 0x0f; 0xb6; 0x04; 0x24] in
  gen_add_rsp g 16.

(** The argument marshalling of [syscall.open], [.read] and [.write]. *)
Definition syscall3 (expr : M Z) (nr : Z) : M unit :=
  expr ;; cg gen_push_rax ;;
  skip_whitespace ;; accept 44 ;;
  expr ;; cg gen_push_rax ;;
  skip_whitespace ;; accept 44 ;;
  expr ;; cg gen_mov_rdx_rax ;;
  cg gen_pop_rax ;; cg gen_mov_rsi_rax ;;
  cg gen_pop_rax ;; cg gen_mov_rdi_rax ;;
  cg (fun g => gen_mov_rax_imm g nr) ;;
  cg gen_syscall.

Definition syscall_close (expr : M Z) : M unit :=
  expr ;; cg gen_mov_rdi_rax ;;
  cg (fun g => gen_mov_rax_imm g 3) ;;
  cg gen_syscall.

Definition syscall_mmap (expr : M Z) : M unit :=
  expr ;; cg gen_push_rax ;;
  skip_whitespace ;; accept 44 ;;
  expr ;; cg gen_push_rax ;;
  skip_whitespace ;; accept 44 ;;
  expr ;; cg gen_push_rax ;;
  skip_whitespace ;; accept 44 ;;
  expr ;; cg gen_push_rax ;;
  skip_whitespace ;; accept 44 ;;
  expr ;; cg gen_push_rax ;;
  skip_whitespace ;; accept 44 ;;
  expr ;;
  emit [0x49; 0x89; 0xc1] ;;
  emit [0x41; 0x58] ;;
  emit [0x41; 0x5a] ;;
  cg gen_pop_rax ;; cg gen_mov_rdx_rax ;;
  cg gen_pop_rax ;; cg gen_mov_rsi_rax ;;
  cg gen_pop_rax ;; cg gen_mov_rdi_rax ;;
  cg (fun g => gen_mov_rax_imm g 9) ;;
  cg gen_syscall.

(** The argument loop of a user-function call.  In an expression the loop
    also stops at 16 arguments ([bounded]); in a statement it does not. *)
Fixpoint call_args (bounded : bool) (expr : M Z) (fuel : nat) (argc : Z)
    : M Z :=
  match fuel with
  | O => out_of_fuel
  | S fuel' =>
      p <- peek ;;
      inside <- in_source ;;
      if negb (p =? 41) && inside && (negb bounded || (argc <? 16)) then
        expr ;;
        cg gen_push_rax ;;
        skip_whitespace ;;
        accept 44 ;;
        skip_whitespace ;;
        call_args bounded expr fuel' (argc + 1)
      else ret argc
  end.

(** What follows the argument loop: the closing parenthesis, the call and
    the caller's stack cleanup. *)
Definition call_tail (name : list Z) (argc : Z) : M unit :=
  accept 41 ;;
  cg (fun g => gen_call g name) ;;
  if argc >? 0 then cg (fun g => gen_add_rsp g (argc * 8)) else ret tt.

(** The string-literal branch of [compile_expr]. *)
Definition compile_string_literal : M Z :=
  buf <- parse_string ;;
  let s := c_str buf in
  let len := zlength s in
  cg (fun g => emit_byte g 0xeb) ;;
  cg (fun g => emit_byte g (len + 1)) ;;
  str_pos <- cg_get code_pos ;;
  cg (fun g => emit_bytes g (s ++ [0])) ;;
  here <- cg_get code_pos ;;
  let rel := to_i32 (- to_i32 (to_u64 (here - str_pos + 7))) in
  emit [0x48; 0x8d; 0x05] ;;
  cg (fun g => emit_i32 g rel) ;;
  ret 0.

(** The [syscall...] branch of a call expression; the name was parsed and
    the parenthesis consumed. *)
Definition compile_syscall_expr (expr : M Z) (name : list Z) : M Z :=
  syscall_name <-
    (if nth 7 name 0 =? 46 then ret (skipn 8 name)
     else
       p <- peek ;;
       if p =? 46 then advance ;; parse_ident
       else ret (skipn 7 name)) ;;
  skip_whitespace ;;
  accept 40 ;;
  (if name_eqb syscall_name (str "open") then syscall3 expr 2
   else if name_eqb syscall_name (str "read") then syscall3 expr 0
   else if name_eqb syscall_name (str "write") then syscall3 expr 1
   else if name_eqb syscall_name (str "close") then syscall_close expr
   else if name_eqb syscall_name (str "mmap") then syscall_mmap expr
   else ret tt) ;;
  skip_whitespace ;;
  accept 41 ;;
  ret 0.

(** The identifier branch of [compile_expr]. *)
Definition compile_ident_expr (expr : M Z) (fuel : nat) : M Z :=
  name <- parse_ident ;;
  skip_whitespace ;;
  p <- peek ;;
  if p =? 40 then
    advance ;;
    skip_whitespace ;;
    if name_eqb name (str "getchar") then
      accept 41 ;;
      cg gen_getchar ;;
      ret 0
    else if name_eqb name (str "peek") then
      expr ;;
      skip_whitespace ;;
      accept 41 ;;
      emit [0x48; 0x0f; 0xb6; 0x00] ;;
      ret 0
    else if name_eqb name (str "poke") then
      expr ;;
      cg gen_push_rax ;;
      skip_whitespace ;;
      accept 44 ;;
      skip_whitespace ;;
      expr ;;
      skip_whitespace ;;
      accept 41 ;;
      cg gen_pop_rbx ;;
      emit [0x88; 0x03] ;;
      ret 0
    else if starts_with name (str "syscall") then
      compile_syscall_expr expr name
    else
      argc <- call_args true expr fuel 0 ;;
      call_tail name argc ;;
      ret 0
  else
    v <- cg_get (fun g => find_var g name) ;;
    match v with
    | Some v => cg (fun g => gen_load_var g v) ;; ret (int_val v)
    | None => cg (fun g => gen_mov_rax_imm g 0) ;; ret 0
    end.

(** The primary part of [compile_expr]: the [if]/[else if] chain. *)
Definition compile_primary (expr : M Z) (fuel : nat) : M Z :=
  ch <- peek ;;
  ch1 <- peek_n 1 ;;
  if isdigit ch || ((ch =? 45) && isdigit ch1) then
    left <- parse_number ;;
    cg (fun g => gen_mov_rax_imm g left) ;;
    ret left
  else if ch =? 34 then compile_string_literal
  else if is_ident_start ch then compile_ident_expr expr fuel
  else if ch =? 40 then
    advance ;;
    left <- expr ;;
    skip_whitespace ;;
    accept 41 ;;
    ret left
  else
    cg (fun g => gen_mov_rax_imm g 0) ;;
    ret 0.

(** The [while] loop over binary operators that ends [compile_expr]. *)
Fixpoint binops (expr : M Z) (fuel : nat) : M unit :=
  match fuel with
  | O => out_of_fuel
  | S fuel' =>
      inside <- in_source ;;
      if negb inside then ret tt
      else
        op <- peek ;;
        op2 <- peek_n 1 ;;
        if (op =? 43) && negb (op2 =? 61) then
          advance ;; cg gen_push_rax ;; expr ;; cg gen_pop_rbx ;;
          emit [0x48; 0x01; 0xd8] ;;
          binops expr fuel'
        else if (op =? 45) && negb (isdigit op2) && negb (op2 =? 61) then
          advance ;; cg gen_push_rax ;; expr ;; cg gen_pop_rbx ;;
          emit [0x48; 0x89; 0xc1] ;;
          emit [0x48; 0x89; 0xd8] ;;
          emit [0x48; 0x29; 0xc8] ;;
          binops expr fuel'
        else if (op =? 42) && negb (op2 =? 61) then
          advance ;; cg gen_push_rax ;; expr ;; cg gen_pop_rbx ;;
          cg gen_mul_rax_rbx ;;
          binops expr fuel'
        else if (op =? 47) && negb (op2 =? 61) then
          advance ;; cg gen_push_rax ;; expr ;;
          emit [0x48; 0x89; 0xc3] ;;
          cg gen_pop_rax ;;
          cg gen_div_rax_rbx ;;
          binops expr fuel'
        else if (op =? 62) && (op2 =? 61) then
          advance ;; advance ;; cg gen_push_rax ;; expr ;; cg gen_pop_rbx ;;
          emit [0x48; 0x39; 0xc3] ;;
          emit [0x0f; 0x9d; 0xc0] ;;
          emit [0x48; 0x0f; 0xb6; 0xc0] ;;
          binops expr fuel'
        else if (op =? 60) && (op2 =? 61) then
          advance ;; advance ;; cg gen_push_rax ;; expr ;; cg gen_pop_rbx ;;
          emit [0x48; 0x39; 0xc3] ;;
          emit [0x0f; 0x9e; 0xc0] ;;
          emit [0x48; 0x0f; 0xb6; 0xc0] ;;
          binops expr fuel'
        else if (op =? 61) && (op2 =? 61) then
          advance ;; advance ;; cg gen_push_rax ;; expr ;; cg gen_pop_rbx ;;
          emit [0x48; 0x39; 0xc3] ;;
          emit [0x0f; 0x94; 0xc0] ;;
          emit [0x48; 0x0f; 0xb6; 0xc0] ;;
          binops expr fuel'
        else if (op =? 33) && (op2 =? 61) then
          advance ;; advance ;; cg gen_push_rax ;; expr ;; cg gen_pop_rbx ;;
          emit [0x48; 0x39; 0xc3] ;;
          emit [0x0f; 0x95; 0xc0] ;;
          emit [0x48; 0x0f; 0xb6; 0xc0] ;;
          binops expr fuel'
        else if (op =? 62) && negb (op2 =? 62) then
          advance ;; cg gen_push_rax ;; expr ;; cg gen_pop_rbx ;;
          emit [0x48; 0x39; 0xc3] ;;
          emit [0x0f; 0x9f; 0xc0] ;;
          emit [0x48; 0x0f; 0xb6; 0xc0] ;;
          binops expr fuel'
        else if (op =? 60) && negb (op2 =? 60) then
          advance ;; cg gen_push_rax ;; expr ;; cg gen_pop_rbx ;;
          emit [0x48; 0x39; 0xc3] ;;
          emit [0x0f; 0x9c; 0xc0] ;;
          emit [0x48; 0x0f; 0xb6; 0xc0] ;;
          binops expr fuel'
        else ret tt
  end.

Fixpoint compile_expr (fuel : nat) : M Z :=
  match fuel with
  | O => out_of_fuel
  | S fuel' =>
      skip_whitespace ;;
      left <- compile_primary (compile_expr fuel') fuel' ;;
      skip_whitespace ;;
      binops (compile_expr fuel') fuel' ;;
      ret left
  end.

(* ================================================================== *)
(** ** Statement compilation *)

Definition compile_out : M unit :=
  skip_whitespace ;;
  buf <- parse_string ;;
  let text := c_str buf in
  let len := zlength text in
  if len =? 0 then ret tt
  else
    cg (fun g => emit_byte g 0xe9) ;;
    cg (fun g => emit_i32 g (to_i32 len)) ;;
    data_pos <- cg_get code_pos ;;
    cg (fun g => emit_bytes g text) ;;
    cg (fun g => gen_mov_rax_imm g 1) ;;
    cg (fun g => gen_mov_rdi_imm g 1) ;;
    here <- cg_get code_pos ;;
    let rel := to_i32 (- to_i32 (to_u64 (here - data_pos + 7))) in
    emit [0x48; 0x8d; 0x35] ;;
    cg (fun g => emit_i32 g rel) ;;
    cg (fun g => gen_mov_rdx_imm g len) ;;
    cg gen_syscall.

Definition compile_emit : M unit :=
  skip_whitespace ;;
  buf <- parse_string ;;
  let bytes := c_str buf in
  let len := zlength bytes in
  if len =? 0 then ret tt
  else
    cg (fun g => emit_byte g 0xe9) ;;
    cg (fun g => emit_i32 g (to_i32 len)) ;;
    data_pos <- cg_get code_pos ;;
    cg (fun g => emit_bytes g bytes) ;;
    cg (fun g => gen_mov_rax_imm g 1) ;;
    cg (fun g => gen_mov_rdi_imm g 1) ;;
    here <- cg_get code_pos ;;
    let rel := to_i32 (- to_i32 (to_u64 (here - data_pos + 7))) in
    emit [0x48; 0x8d; 0x35] ;;
    cg (fun g => emit_i32 g rel) ;;
    cg (fun g => gen_mov_rdx_imm g len) ;;
    cg gen_syscall.

(** The parameter loop of [compile_fn_def]. *)
Fixpoint fn_params (fuel : nat) (ps : list (list Z)) : M (list (list Z)) :=
  match fuel with
  | O => out_of_fuel
  | S fuel' =>
      inside <- in_source ;;
      p <- peek ;;
      if inside && negb (p =? 123) && (zlength ps <? 16) then
        ps' <- (if is_ident_start p
                then param <- parse_ident ;; ret (ps ++ [strncpy 255 param])
                else ret ps) ;;
        skip_whitespace ;;
        fn_params fuel' ps'
      else ret ps
  end.

(** [compile_fn_def].  The entry [funcs[func_count]] is claimed first and
    filled while parsing; nothing reads it in between, so it is stored once
    its fields are known.  [code_offset] is not assigned here. *)
Definition compile_fn_def (fuel : nat) : M unit :=
  skip_whitespace ;;
  name <- parse_ident ;;
  idx <- cg_get func_count ;;
  if idx >=? MAX_FUNCS then ret tt
  else
    cg (fun g => set_func_count g (idx + 1)) ;;
    skip_whitespace ;;
    ps <- fn_params fuel [] ;;
    p <- peek ;;
    range <-
      (if p =? 123 then
         advance ;;
         body_pos <- get_pos ;;
         lex (fun s l p => (tt, skip_braces s l (left_at l p) p 1)) ;;
         e <- get_pos ;;
         ret (body_pos, e - 1)
       else ret (0, 0)) ;;
    cg (fun g =>
          let old := nth (Z.to_nat idx) (funcs g)
                       (mkFunction [] 0 0 [] 0 0) in
          set_funcs g
            (array_set (funcs g) idx
               (mkFunction (strncpy 255 name) (code_offset old) (zlength ps)
                  ps (fst range) (snd range)))).

Definition compile_when (expr : M Z) (block : M unit) : M unit :=
  id <- cg_get when_id ;;
  cg (fun g => set_when_id g (id + 1)) ;;
  let end_label := str "_when_end_" ++ sprintf_d id in
  skip_whitespace ;;
  expr ;;
  cg gen_test_rax_rax ;;
  cg (fun g => gen_je g end_label) ;;
  skip_whitespace ;;
  p <- peek ;;
  (if p =? 123 then block else ret tt) ;;
  cg (fun g => add_label g end_label).

(** [if (c->loop_depth < 16) { ... c->loop_depth++; }] *)
Definition push_loop (start_label end_label : list Z) : M unit :=
  fun c =>
    if loop_depth c <? 16 then
      Some (tt, set_loop_depth
                  (set_loop_labels c
                     (array_set (loop_labels c) (loop_depth c)
                        (strncpy 63 start_label, strncpy 63 end_label)))
                  (loop_depth c + 1))
    else Some (tt, c).

(** [if (c->loop_depth > 0) c->loop_depth--;] *)
Definition pop_loop : M unit :=
  fun c =>
    if loop_depth c >? 0 then Some (tt, set_loop_depth c (loop_depth c - 1))
    else Some (tt, c).

(** The end label of the innermost loop, if a loop is open. *)
Definition innermost_end : M (option (list Z)) :=
  fun c =>
    if loop_depth c >? 0
    then Some (Some (snd (nth (Z.to_nat (loop_depth c - 1)) (loop_labels c)
                            ([], []))), c)
    else Some (None, c).

(** The fate hook of [compile_loop]. *)
Definition fate_hook : M unit :=
  fun c =>
    if fate_mode c && fate_on (fate c)
    then Some (tt, set_fate c (fate_tick (fate c) (tile c)))
    else Some (tt, c).

Definition compile_loop (block : M unit) : M unit :=
  id <- cg_get loop_id ;;
  cg (fun g => set_loop_id g (id + 1)) ;;
  let start_label := str "_loop_start_" ++ sprintf_d id in
  let end_label := str "_loop_end_" ++ sprintf_d id in
  push_loop start_label end_label ;;
  cg (fun g => add_label g start_label) ;;
  skip_whitespace ;;
  p <- peek ;;
  (if p =? 123 then block else ret tt) ;;
  fate_hook ;;
  cg (fun g => gen_jmp g start_label) ;;
  cg (fun g => add_label g end_label) ;;
  pop_loop.

Definition compile_break : M unit :=
  l <- innermost_end ;;
  match l with
  | Some end_label => cg (fun g => gen_jmp g end_label)
  | None => ret tt
  end.

Definition compile_return (expr : M Z) : M unit :=
  skip_whitespace ;;
  inside <- in_source ;;
  p <- peek ;;
  (if inside && negb (p =? 10) && negb (p =? 125)
   then expr ;; ret tt else ret tt) ;;
  l <- innermost_end ;;
  match l with
  | Some end_label => cg (fun g => gen_jmp g end_label)
  | None => cg gen_epilogue
  end.

(** [add_var(&c->codegen, name, type)] *)
Definition add_var_m (name : list Z) (type : VarType)
    : M (option Variable_t) :=
  fun c =>
    let '(v, g) := add_var (codegen c) name type in
    Some (v, set_codegen c g).

Definition compile_assign (expr : M Z) (name : list Z) : M unit :=
  skip_whitespace ;;
  found <- cg_get (fun g => find_var g name) ;;
  v <- match found with
       | Some v => ret (Some v)
       | None => add_var_m name VAR_INT
       end ;;
  match v with
  | Some v => expr ;; cg (fun g => gen_store_var g v)
  | None => ret tt
  end.

Fixpoint block_loop (stmt : M unit) (fuel : nat) : M unit :=
  match fuel with
  | O => out_of_fuel
  | S fuel' =>
      inside <- in_source ;;
      if negb inside then ret tt
      else
        skip_whitespace ;;
        p <- peek ;;
        if p =? 125 then advance ;; ret tt
        else stmt ;; block_loop stmt fuel'
  end.

Definition compile_block (stmt : M unit) (fuel : nat) : M unit :=
  skip_whitespace ;;
  accept 123 ;;
  block_loop stmt fuel.

(** The assignments of [parse_unified_block] to [c->unified]. *)
Definition unified_assign (key : list Z) (val : float) : M unit :=
  fun c =>
    let u := unified c in
    if name_eqb key (str "i") || name_eqb key (str "information_density")
    then Some (tt, set_unified c (mkUnifiedField val (uf_e u) (uf_r u)))
    else if name_eqb key (str "e") || name_eqb key (str "entropy_gradient")
    then Some (tt, set_unified c (mkUnifiedField (uf_i u) val (uf_r u)))
    else if name_eqb key (str "r") || name_eqb key (str "relation_strength")
    then Some (tt, set_unified c (mkUnifiedField (uf_i u) (uf_e u) val))
    else Some (tt, c).

Fixpoint unified_pairs (fuel : nat) : M unit :=
  match fuel with
  | O => out_of_fuel
  | S fuel' =>
      inside <- in_source ;;
      p <- peek ;;
      if inside && negb (p =? 125) then
        skip_whitespace ;;
        p <- peek ;;
        if p =? 125 then ret tt
        else
          key <- parse_ident ;;
          skip_whitespace ;;
          accept 58 ;;
          skip_whitespace ;;
          n <- parse_number ;;
          unified_assign key (double_of_Z n) ;;
          skip_whitespace ;;
          accept 44 ;;
          unified_pairs fuel'
      else ret tt
  end.

Definition parse_unified_block (fuel : nat) : M unit :=
  skip_whitespace ;;
  p <- peek ;;
  if negb (p =? 123) then skip_line
  else
    advance ;;
    unified_pairs fuel ;;
    accept 125.

(** [fate on] / [fate off] *)
Definition fate_switch (on : bool) : M unit :=
  fun c => Some (tt, set_fate (set_fate_mode c on) (set_fate_on (fate c) on)).

(** [c->fate.marginal_threshold = 1.0 / n] for the [int] [n]. *)
Definition fate_limit (n : Z) : M unit :=
  fun c =>
    Some (tt, set_fate c
                (set_marginal_threshold (fate c)
                   (PrimFloat.div 1%float (double_of_Z n)))).

(** The chain [if (match(c, kw)) { ...; return; }]: the first keyword that
    matches decides. *)
Fixpoint first_match (rules : list (list Z * M unit)) (otherwise : M unit)
    : M unit :=
  match rules with
  | [] => otherwise
  | (kw, body) :: rest => ifM (match_ kw) body (first_match rest otherwise)
  end.

(** [match(c, k1) || match(c, k2) || ...] *)
Fixpoint any_match (kws : list (list Z)) : M bool :=
  match kws with
  | [] => ret false
  | kw :: rest => ifM (match_ kw) (ret true) (any_match rest)
  end.

Definition block_keywords : list (list Z) :=
  map str
    ["pool "; "fate {"; "task {"; "gpu {"; "perf {"; "reg {"; "sys {";
     "compiler {"; "collapse {"; "lib {"; "env {"; "rule "; "intent ";
     "platform {"; "tile {"; "codegen {"; "graphics {"; "gui {"; "style {";
     "layout {"; "event {"; "db {"; "core {"; "kernel {"; "linux {";
     "macos {"; "windows {"; "driver {"; "observe {"; "field {";
     "use "]%string.

Definition stmt_exit (expr : M Z) : M unit :=
  skip_whitespace ;;
  ch <- peek ;;
  if ((48 <=? ch) && (ch <=? 57)) || (ch =? 45) then
    n <- parse_number ;;
    lex (fun s l p => (tt, skip_to_rparen s l (left_at l p) p)) ;;
    accept 41 ;;
    cg (fun g => gen_exit g (to_i32 n))
  else
    expr ;;
    skip_whitespace ;;
    accept 41 ;;
    cg gen_exit_rax.

Definition stmt_poke (expr : M Z) : M unit :=
  expr ;;
  cg gen_push_rax ;;
  skip_whitespace ;;
  accept 44 ;;
  skip_whitespace ;;
  expr ;;
  cg gen_pop_rbx ;;
  emit [0x88; 0x03] ;;
  skip_whitespace ;;
  accept 41.

Definition stmt_peek (expr : M Z) : M unit :=
  expr ;;
  emit [0x48; 0x0f; 0xb6; 0x00] ;;
  skip_whitespace ;;
  accept 41.

(** [putchar(n)] and [byte(n)]: one byte written from a stack scratch. *)
Definition stmt_putchar (expr : M Z) : M unit :=
  expr ;;
  skip_whitespace ;;
  accept 41 ;;
  cg (fun g => gen_sub_rsp g 16) ;;
  emit [0x88; 0x04; 0x24] ;;
  cg (fun g => gen_mov_rax_imm g 1) ;;
  cg (fun g => gen_mov_rdi_imm g 1) ;;
  emit [0x48; 0x8d; 0x34; 0x24] ;;
  cg (fun g => gen_mov_rdx_imm g 1) ;;
  cg gen_syscall ;;
  cg (fun g => gen_add_rsp g 16).

(** Variable assignment or function call: the last case of
    [compile_statement]. *)
Definition stmt_ident (expr : M Z) (fuel : nat) : M unit :=
  ch <- peek ;;
  if is_ident_start ch then
    name <- parse_ident ;;
    skip_whitespace ;;
    p <- peek ;;
    p1 <- peek_n 1 ;;
    if (p =? 61) && negb (p1 =? 61) then
      advance ;;
      compile_assign expr name
    else if p =? 40 then
      advance ;;
      skip_whitespace ;;
      argc <- call_args false expr fuel 0 ;;
      call_tail name argc
    else skip_line
  else skip_line.

Definition statement_rules (expr : M Z) (block : M unit) (fuel : nat)
    : list (list Z * M unit) :=
  [ (str "out ", pos_add 4 ;; compile_out);
    (str "emit ", pos_add 5 ;; compile_emit);
    (str "fn ", pos_add 3 ;; compile_fn_def fuel);
    (str "when ", pos_add 5 ;; compile_when expr block);
    (str "loop", pos_add 4 ;; skip_whitespace ;; compile_loop block);
    (str "break", pos_add 5 ;; compile_break);
    (str "return", pos_add 6 ;; compile_return expr);
    (str "-> ", pos_add 3 ;; compile_return expr);
    (str "keep", pos_add 4 ;; cg gen_event_loop);
    (str "fate on", pos_add 7 ;; fate_switch true);
    (str "fate off", pos_add 8 ;; fate_switch false);
    (str "limit ", pos_add 6 ;; n <- parse_number ;; fate_limit (to_i32 n));
    (str "syscall.exit(", pos_add 13 ;; stmt_exit expr);
    (str "syscall.write(",
      pos_add 14 ;; syscall3 expr 1 ;; skip_whitespace ;; accept 41);
    (str "syscall.read(",
      pos_add 13 ;; syscall3 expr 0 ;; skip_whitespace ;; accept 41);
    (str "syscall.open(",
      pos_add 13 ;; syscall3 expr 2 ;; skip_whitespace ;; accept 41);
    (str "syscall.close(",
      pos_add 14 ;; syscall_close expr ;; skip_whitespace ;; accept 41);
    (str "syscall.mmap(",
      pos_add 13 ;; syscall_mmap expr ;; skip_whitespace ;; accept 41);
    (str "poke(", pos_add 5 ;; stmt_poke expr);
    (str "peek(", pos_add 5 ;; stmt_peek expr);
    (str "getchar()", pos_add 9 ;; cg gen_getchar);
    (str "putchar(", pos_add 8 ;; stmt_putchar expr);
    (str "byte(", pos_add 5 ;; stmt_putchar expr);
    (str "unified ", pos_add 8 ;; parse_unified_block fuel);
    (str "unified{", pos_add 7 ;; parse_unified_block fuel);
    (str "platform.probe", pos_add 14);
    (str "bridge.read", pos_add 11);
    (str "compat.probe", pos_add 12) ].

(** The body of [compile_statement]; [expr] and [block] are [compile_expr]
    and [compile_block] at the remaining budget. *)
Definition compile_statement_body (expr : M Z) (block : M unit) (fuel : nat)
    : M unit :=
  skip_whitespace ;;
  inside <- in_source ;;
  if negb inside then ret tt
  else
    ch <- peek ;;
    if ch =? 35 then skip_line
    else
      first_match (statement_rules expr block fuel)
        (ifM (any_match block_keywords) skip_block_decl
           (first_match
              [ (str "otherwise",
                  pos_add 9 ;;
                  skip_whitespace ;;
                  p <- peek ;;
                  if p =? 123 then block else ret tt) ]
              (stmt_ident expr fuel))).

Fixpoint compile_statement (fuel : nat) : M unit :=
  match fuel with
  | O => out_of_fuel
  | S fuel' =>
      compile_statement_body (compile_expr fuel')
        (compile_block (compile_statement fuel') fuel') fuel'
  end.

(* ================================================================== *)
(** ** Function bodies and the driver *)

(** The parameter loop of [compile_function_body]: parameter [i] becomes
    [vars[var_count++]].  The loop does not test the table's capacity. *)
Fixpoint bind_params (rounds : nat) (i : Z) (fn : Function_t) (g : CodeGen)
    : CodeGen :=
  match rounds with
  | O => g
  | S rounds' =>
      let v := mkVariable (strncpy 255 (nth (Z.to_nat i) (params fn) []))
                 VAR_INT 0 (16 + (param_count fn - 1 - i) * 8)
                 true false 0 in
      let g := set_var_count (set_vars g (array_set (vars g) (var_count g) v))
                 (var_count g + 1) in
      bind_params rounds' (i + 1) fn g
  end.

(** [while (c->pos < fn->body_end) compile_statement(c);] *)
Fixpoint body_loop (stmt : M unit) (body_end : Z) (fuel : nat) : M unit :=
  match fuel with
  | O => out_of_fuel
  | S fuel' =>
      p <- get_pos ;;
      if p <? body_end then stmt ;; body_loop stmt body_end fuel'
      else ret tt
  end.

Definition set_current (idx : option Z) : M unit :=
  fun c => Some (tt, set_current_func c idx).

(** [compile_function_body(c, &c->codegen.funcs[idx])] *)
Definition compile_function_body (fuel : nat) (idx : Z) (fn : Function_t)
    : M unit :=
  saved_var_count <- cg_get var_count ;;
  saved_stack_size <- cg_get stack_size ;;
  saved_in_function <- cg_get in_function ;;
  cg (fun g => set_in_function g true) ;;
  set_current (Some idx) ;;
  cg (bind_params (Z.to_nat (param_count fn)) 0 fn) ;;
  saved_pos <- get_pos ;;
  put_pos (body_pos fn) ;;
  body_loop (compile_statement fuel) (body_end fn) fuel ;;
  put_pos saved_pos ;;
  cg (fun g => set_var_count g saved_var_count) ;;
  cg (fun g => set_stack_size g saved_stack_size) ;;
  cg (fun g => set_in_function g saved_in_function) ;;
  set_current None.

(** The start of [compile]: the rule systems and the four default pools. *)
Definition init_rules : M unit :=
  fun c =>
    let t := tile_init in
    let t := tile_add_pool t 0x10000 0x10000 (str "blackhole") in
    let t := tile_add_pool t 0x20000 0x10000 (str "meshbrain") in
    let t := tile_add_pool t 0x30000 0x10000 (str "multinova") in
    let t := tile_add_pool t 0x40000 0x10000 (str "baseforce") in
    Some (tt, set_tile (set_fate (set_unified c unified_init) fate_init) t).

(** First pass: collect function definitions. *)
Fixpoint pass1 (fuel : nat) : M unit :=
  match fuel with
  | O => out_of_fuel
  | S fuel' =>
      inside <- in_source ;;
      if negb inside then ret tt
      else
        skip_whitespace ;;
        ifM (match_ (str "fn "))
          (pos_add 3 ;; compile_fn_def fuel')
          skip_line ;;
        pass1 fuel'
  end.

(** Second pass: compile the main program. *)
Fixpoint pass2 (fuel : nat) : M unit :=
  match fuel with
  | O => out_of_fuel
  | S fuel' =>
      inside <- in_source ;;
      if negb inside then ret tt
      else compile_statement fuel' ;; pass2 fuel'
  end.

(** Third pass: generate the function bodies, [funcs[i]] for [i] below the
    function count as it stands at each round. *)
Fixpoint pass3 (fuel : nat) (i : Z) : M unit :=
  match fuel with
  | O => out_of_fuel
  | S fuel' =>
      n <- cg_get func_count ;;
      if i <? n then
        fn <- cg_get (fun g => nth (Z.to_nat i) (funcs g)
                                 (mkFunction [] 0 0 [] 0 0)) ;;
        (if (body_pos fn >? 0) && (body_end fn >? body_pos fn) then
           cg (fun g =>
                 set_funcs g
                   (array_set (funcs g) i
                      (mkFunction (fn_name fn) (code_pos g) (param_count fn)
                         (params fn) (body_pos fn) (body_end fn)))) ;;
           cg (fun g => add_label g (fn_name fn)) ;;
           cg gen_prologue ;;
           cg (fun g => gen_sub_rsp g 256) ;;
           compile_function_body fuel' i fn ;;
           cg (fun g => gen_add_rsp g 256) ;;
           cg gen_pop_rbp ;;
           cg (fun g => emit_byte g 0xc3)
         else ret tt) ;;
        pass3 fuel' (i + 1)
      else ret tt
  end.

(** [compile] up to the call of [resolve_fixups]. *)
Definition compile_passes (fuel : nat) : M unit :=
  cg gen_prologue ;;
  cg (fun g => gen_sub_rsp g 512) ;;
  init_rules ;;
  saved_pos <- get_pos ;;
  pass1 fuel ;;
  put_pos saved_pos ;;
  func_count <- cg_get func_count ;;
  cg (fun g => set_func_count g 0) ;;
  pass2 fuel ;;
  cg (fun g => set_func_count g func_count) ;;
  cg (fun g => gen_exit g 0) ;;
  pass3 fuel 0.

Definition compile (fuel : nat) : M unit :=
  compile_passes fuel ;;
  cg resolve_fixups.

(* ================================================================== *)
(** ** Main

    The process environment: the argument vector, what [fopen(input, "r")]
    yields ([None] when it fails), whether [malloc] of the compiler
    succeeds, and whether [fopen(output, "wb")] succeeds.  Standard output
    is not modelled. *)

Record Env := mkEnv {
  argv : list (list Z);
  input_file : option (list Z);
  malloc_ok : bool;
  output_ok : bool
}.

Record Outcome := mkOutcome {
  exit_code : Z;
  stderr : list Z;
  output_name : list Z;
  output_file : option File
}.

(** The option loop of [main], from [argv[i]] on. *)
Fixpoint parse_args (args : list (list Z)) (output : list Z) (raw : bool)
    : list Z * bool :=
  match args with
  | [] => (output, raw)
  | a :: rest =>
      if name_eqb a (str "-o") then
        match rest with
        | o :: rest' => parse_args rest' o raw
        | [] => (output, raw)
        end
      else if name_eqb a (str "--raw") then parse_args rest output true
      else parse_args rest output raw
  end.

Definition main (fuel : nat) (env : Env) : option Outcome :=
  match argv env with
  | [] | [_] => Some (mkOutcome 1 [] [] None)
  | _ :: input :: options =>
      let '(output, raw) := parse_args options (str "a.out") false in
      match input_file env with
      | None =>
          Some (mkOutcome 1 (str "Cannot open: " ++ input ++ [10])
                  output None)
      | Some text =>
          if negb (malloc_ok env) then
            Some (mkOutcome 1 (str "Out of memory" ++ [10]) output None)
          else
            match compile fuel (compiler_init text) with
            | None => None
            | Some (_, c) =>
                let file :=
                  if raw then write_raw (codegen c) (output_ok env)
                  else write_elf (codegen c) (output_ok env) in
                Some (mkOutcome 0 [] output file)
            end
      end
  end.

(* ================================================================== *)
(** ** Vocabulary of the specification *)

(** Two compiler states that differ at most in the rule subsystem (unified
    field, tile manager, fate scheduler, fate mode, platform record). *)
Definition telemetry_equiv (c1 c2 : Compiler) : Prop :=
  source c1 = source c2 /\ pos c1 = pos c2 /\ len c1 = len c2 /\
  loop_depth c1 = loop_depth c2 /\ loop_labels c1 = loop_labels c2 /\
  codegen c1 = codegen c2 /\ current_func c1 = current_func c2 /\
  base_var_count c1 = base_var_count c2.

(** A property of the code generator state that every state-changing
    operation of the code generator keeps. *)
Record emitter_invariant (I : CodeGen -> Prop) : Prop := {
  inv_emit_byte : forall g b, I g -> I (emit_byte g b);
  inv_add_label : forall g n, I g -> I (add_label g n);
  inv_add_fixup : forall g n, I g -> I (add_fixup g n);
  inv_add_var : forall g n t, I g -> I (snd (add_var g n t));
  inv_set_vars : forall g v, I g -> I (set_vars g v);
  inv_set_var_count : forall g v, I g -> I (set_var_count g v);
  inv_set_stack_size : forall g v, I g -> I (set_stack_size g v);
  inv_set_funcs : forall g v, I g -> I (set_funcs g v);
  inv_set_func_count : forall g v, I g -> I (set_func_count g v);
  inv_set_when_id : forall g v, I g -> I (set_when_id g v);
  inv_set_loop_id : forall g v, I g -> I (set_loop_id g v);
  inv_set_in_function : forall g v, I g -> I (set_in_function g v)
}.

(** Two runs from states that agree up to the rule subsystem, the code
    generator satisfying [I]. *)
Definition related (I : CodeGen -> Prop) (c1 c2 : Compiler) : Prop :=
  telemetry_equiv c1 c2 /\ I (codegen c1).

(** [m] run from two related states: both runs end or both run out of
    budget; when they end, the results are equal and the states related. *)
Definition Sim (I : CodeGen -> Prop) {A} (m : M A) : Prop :=
  forall c1 c2, related I c1 c2 ->
    match m c1, m c2 with
    | Some (a1, c1'), Some (a2, c2') => a1 = a2 /\ related I c1' c2'
    | None, None => True
    | _, _ => False
    end.

(** A call of one of the emitters of the byte-emission and label/fixup
    layer, and a sequence of such calls run on a code generator. *)
Inductive emitter_call :=
| Call_emit_byte (b : Z)
| Call_emit_bytes (bytes : list Z)
| Call_emit_u32 (v : Z)
| Call_emit_i32 (v : Z)
| Call_emit_u64 (v : Z)
| Call_add_label (name : list Z)
| Call_add_fixup (label : list Z).

Definition run_call (cg : CodeGen) (call : emitter_call) : CodeGen :=
  match call with
  | Call_emit_byte b => emit_byte cg b
  | Call_emit_bytes bytes => emit_bytes cg bytes
  | Call_emit_u32 v => emit_u32 cg v
  | Call_emit_i32 v => emit_i32 cg v
  | Call_emit_u64 v => emit_u64 cg v
  | Call_add_label name => add_label cg name
  | Call_add_fixup label => add_fixup cg label
  end.

Definition run_calls (calls : list emitter_call) (cg : CodeGen) : CodeGen :=
  fold_left run_call calls cg.

(** The write cursor is within the capacity. *)
Definition within_capacity (cg : CodeGen) : Prop :=
  code_pos cg <= code_cap cg.



(** The integer that [bytes] hold, least significant byte first. *)
Definition le_value (bytes : list Z) : Z :=
  fold_right (fun b acc => b + 256 * acc) 0 bytes.

(** The [n] bytes at offset [off] of a byte sequence, when all of them lie
    inside. *)
Definition bytes_at (n : nat) (l : list Z) (off : Z) : option (list Z) :=
  if (0 <=? off) && (off + Z.of_nat n <=? zlength l)
  then Some (firstn n (skipn (Z.to_nat off) l))
  else None.

(** The unsigned [n]-byte little-endian integer at offset [off]. *)
Definition read_le (n : nat) (l : list Z) (off : Z) : option Z :=
  option_map le_value (bytes_at n l off).

(** The same read as a signed 32-bit integer. *)
Definition read_i32 (l : list Z) (off : Z) : option Z :=
  option_map to_i32 (read_le 4 l off).

(** The offset of the first label of the table whose name is [name]. *)
Fixpoint first_label (ls : list (list Z * Z)) (name : list Z) : option Z :=
  match ls with
  | [] => None
  | (n, target) :: ls' =>
      if name_eqb name n then Some target else first_label ls' name
  end.

(** C1's statement for one fixup [fx] of [cg], read on the code buffer of
    [cg'], the state after [resolve_fixups]. *)
Definition fixup_as_claimed (cg cg' : CodeGen) (fx : Z * list Z) : Prop :=
  match first_label (labels cg) (snd fx) with
  | Some target =>
      read_i32 (code cg') (fst fx) = Some (target - (fst fx + 4))
  | None => bytes_at 4 (code cg') (fst fx) = Some [0; 0; 0; 0]
  end.

(** The bytes [resolve_fixups] stores for [offset]. *)
Definition patch_bytes (offset : Z) : list Z :=
  [to_u8 (Z.land offset 255); to_u8 (Z.land (Z.shiftr offset 8) 255);
   to_u8 (Z.land (Z.shiftr offset 16) 255);
   to_u8 (Z.land (Z.shiftr offset 24) 255)].

(** One round of the outer loop of [resolve_fixups], on the code buffer. *)
Definition resolve_code (ls : list (list Z * Z)) (c : list Z)
    (fx : Z * list Z) : list Z :=
  match first_label ls (snd fx) with
  | Some target =>
      patch_i32 c (fst fx) (to_i32 (to_u64 (target - fst fx - 4)))
  | None => c
  end.

(** Two four-byte windows that do not overlap. *)
Definition apart (p q : Z) : Prop := p + 4 <= q \/ q + 4 <= p.

(** The shape of the label and fixup tables that the emitters maintain:
    labels lie inside the written code; the placeholder of a fixup was
    emitted as far as the capacity allowed and, when it fits, holds zeros;
    and two fixups are the same entry or their placeholders do not overlap
    inside the buffer. *)
Definition fixups_wf (cg : CodeGen) : Prop :=
  within_capacity cg /\ code_cap cg = MAX_CODE /\
  (forall n t, In (n, t) (labels cg) -> 0 <= t <= code_pos cg) /\
  (forall p n, In (p, n) (fixups cg) ->
     0 <= p /\ Z.min (p + 4) (code_cap cg) <= code_pos cg) /\
  (forall p n, In (p, n) (fixups cg) -> p + 4 <= code_cap cg ->
     bytes_at 4 (code cg) p = Some [0; 0; 0; 0]) /\
  (forall p n p' n', In (p, n) (fixups cg) -> In (p', n') (fixups cg) ->
     (p, n) = (p', n') \/ Z.min (p + 4) (code_cap cg) <= p'
     \/ Z.min (p' + 4) (code_cap cg) <= p).




(** The value of the integer part of a numeric literal, as the
    specification describes it: the digits read left to right in base 10,
    or in base 16 after [0x], in 64-bit signed arithmetic, negated after a
    leading [-]. *)
Definition hex_val (ch : Z) : Z :=
  match hexval ch with Some d => d | None => 0 end.

Definition digits_value (base : Z) (val : Z -> Z) (digits : list Z) (acc : Z)
    : Z :=
  fold_left (fun acc ch => to_i64 (acc * base + val ch)) digits acc.

Definition integer_part_value (neg hex : bool) (digits : list Z) : Z :=
  let v := if hex then digits_value 16 hex_val digits 0
           else digits_value 10 (fun ch => ch - 48) digits 0 in
  if neg then to_i64 (- v) else v.

(** The text of a numeric literal with a fractional part. *)
Definition literal_text (neg hex : bool) (digits frac : list Z) : list Z :=
  (if neg then [45] else []) ++ (if hex then [48; 120] else [])
  ++ digits ++ [46] ++ frac.

(** The scale factor of [parse_number] after [n] digits of the fraction. *)
Fixpoint frac_after (n : nat) : float :=
  match n with
  | O => 0.1%float
  | S k => PrimFloat.mul (frac_after k) 0.1%float
  end.

(** No decimal digit, scaled by [frac], reaches 1. *)
Definition frac_harmless (frac : float) : bool :=
  forallb
    (fun d => int64_of_double (PrimFloat.mul (double_of_Z d) frac) =? 0)
    [0; 1; 2; 3; 4; 5; 6; 7; 8; 9].

Definition int64_range (v : Z) : Prop := - 2 ^ 63 <= v < 2 ^ 63.

(** The text does not go on with a decimal digit. *)
Definition no_digit_ahead (rest : list Z) : Prop :=
  isdigit (hd 0 rest) = false.


(** The operand of a short jump as the processor reads it: a signed byte. *)
Definition rel8 (b : Z) : Z := if b <? 128 then b else b - 256.

(** Where a short jump at [off] lands: the end of the two-byte instruction
    plus its signed operand. *)
Definition short_jump_target (c : list Z) (off : Z) : Z :=
  off + 2 + rel8 (nth (Z.to_nat (off + 1)) c 0).

(** A string literal of [n] letters [a], with its quotes. *)
Definition literal_of_a (n : nat) : list Z := [34] ++ repeat 97 n ++ [34].









(* ================================================================== *)
(** ** Simulation of the compiling functions *)

Section Simulation.

Variable Inv : CodeGen -> Prop.
Hypothesis HInv : emitter_invariant Inv.

Lemma Sim_ret {A} (a : A) : Sim Inv (ret a).
Proof. intros c1 c2 H. simpl. auto. Qed.

Lemma Sim_out_of_fuel {A} : Sim Inv (@out_of_fuel A).
Proof. intros c1 c2 H. exact I. Qed.

Lemma Sim_bind {A B} (m : M A) (k : A -> M B) :
  Sim Inv m -> (forall a, Sim Inv (k a)) -> Sim Inv (bind m k).
Proof.
  intros Hm Hk c1 c2 H. unfold bind.
  specialize (Hm c1 c2 H).
  destruct (m c1) as [[a1 c1']|], (m c2) as [[a2 c2']|]; try contradiction; auto.
  destruct Hm as [-> Hr]. apply Hk; assumption.
Qed.

Lemma Sim_lex {A} (f : list Z -> Z -> Z -> A * Z) : Sim Inv (lex f).
Proof.
  intros c1 c2 [He Hi]. unfold lex.
  destruct He as (Hs & Hp & Hl & Hd & Hll & Hg & Hf & Hb).
  rewrite Hs, Hp, Hl.
  destruct (f (source c2) (len c2) (pos c2)) as [a p].
  split; [reflexivity|].
  split; [|exact Hi].
  repeat split; simpl; assumption.
Qed.

Lemma Sim_cg (f : CodeGen -> CodeGen) :
  (forall g, Inv g -> Inv (f g)) -> Sim Inv (cg f).
Proof.
  intros Hf c1 c2 [He Hi]. unfold cg.
  destruct He as (Hs & Hp & Hl & Hd & Hll & Hg & Hfn & Hb).
  split; [reflexivity|].
  split; [|simpl; apply Hf; exact Hi].
  repeat split; simpl; try assumption. rewrite Hg. reflexivity.
Qed.

Lemma Sim_cg_get {A} (f : CodeGen -> A) : Sim Inv (cg_get f).
Proof.
  intros c1 c2 [He Hi]. unfold cg_get.
  pose proof He as (Hs & Hp & Hl & Hd & Hll & Hg & Hfn & Hb).
  rewrite Hg. split; [reflexivity|]. split; assumption.
Qed.

Lemma Sim_ifM {A} (b : M bool) (m1 m2 : M A) :
  Sim Inv b -> Sim Inv m1 -> Sim Inv m2 -> Sim Inv (ifM b m1 m2).
Proof.
  intros Hb H1 H2. unfold ifM. apply Sim_bind; [exact Hb|].
  intros []; assumption.
Qed.


(** *** The invariant under the derived emitters *)

Lemma keep_emit_byte g b : Inv g -> Inv (emit_byte g b).
Proof. apply (inv_emit_byte Inv HInv). Qed.

Lemma keep_emit_bytes l : forall g, Inv g -> Inv (emit_bytes g l).
Proof.
  unfold emit_bytes. induction l as [|b l IH]; intros g Hg; simpl.
  - exact Hg.
  - apply IH. apply keep_emit_byte. exact Hg.
Qed.

Lemma keep_emit_u32 g v : Inv g -> Inv (emit_u32 g v).
Proof. intro Hg. unfold emit_u32. repeat apply keep_emit_byte. exact Hg. Qed.

Lemma keep_emit_i32 g v : Inv g -> Inv (emit_i32 g v).
Proof. apply keep_emit_u32. Qed.

Lemma keep_emit_u64 g v : Inv g -> Inv (emit_u64 g v).
Proof. intro Hg. unfold emit_u64. repeat apply keep_emit_u32. exact Hg. Qed.

Lemma keep_add_label g n : Inv g -> Inv (add_label g n).
Proof. apply (inv_add_label Inv HInv). Qed.

Lemma keep_add_fixup g n : Inv g -> Inv (add_fixup g n).
Proof. apply (inv_add_fixup Inv HInv). Qed.

Lemma keep_bind_params fn : forall rounds i g,
  Inv g -> Inv (bind_params rounds i fn g).
Proof.
  induction rounds as [|r IH]; intros i g Hg; simpl.
  - exact Hg.
  - apply IH. apply (inv_set_var_count Inv HInv).
    apply (inv_set_vars Inv HInv). exact Hg.
Qed.

End Simulation.

Create HintDb gens.

#[local] Hint Unfold gen_push_rbp gen_pop_rbp gen_push_rax gen_pop_rax
  gen_push_rbx gen_pop_rbx gen_mov_rbp_rsp gen_mov_rsp_rbp gen_ret
  gen_syscall gen_pause gen_nop gen_sub_rsp gen_add_rsp gen_mov_rax_imm
  gen_mov_rdi_imm gen_mov_rsi_imm gen_mov_rdx_imm gen_mov_rdi_rax
  gen_mov_rsi_rax gen_mov_rdx_rax gen_mov_rax_rbp_off gen_mov_rbp_off_rax
  gen_mov_rax_abs gen_mov_abs_rax gen_load_var gen_store_var gen_mul_rax_rbx
  gen_div_rax_rbx gen_test_rax_rax gen_je gen_jne gen_jmp gen_call gen_exit
  gen_exit_rax gen_prologue gen_epilogue gen_event_loop gen_getchar : gens.

(** Closes [Inv (f g)] from [Inv g] when [f] is built from the emitters. *)
Ltac keep_inv HInv :=
  intros; autounfold with gens; cbv beta zeta;
  repeat match goal with
         | |- context [if ?b then _ else _] => destruct b
         end;
  repeat match goal with
         | H : ?P |- ?P => exact H
         | |- _ (add_label _ _) => apply (keep_add_label _ HInv)
         | |- _ (add_fixup _ _) => apply (keep_add_fixup _ HInv)
         | |- _ (emit_u64 _ _) => apply (keep_emit_u64 _ HInv)
         | |- _ (emit_i32 _ _) => apply (keep_emit_i32 _ HInv)
         | |- _ (emit_u32 _ _) => apply (keep_emit_u32 _ HInv)
         | |- _ (emit_bytes _ _) => apply (keep_emit_bytes _ HInv)
         | |- _ (emit_byte _ _) => apply (keep_emit_byte _ HInv)
         | |- _ (bind_params _ _ _ _) => apply (keep_bind_params _ HInv)
         | |- _ (set_vars _ _) => apply (inv_set_vars _ HInv)
         | |- _ (set_var_count _ _) => apply (inv_set_var_count _ HInv)
         | |- _ (set_stack_size _ _) => apply (inv_set_stack_size _ HInv)
         | |- _ (set_funcs _ _) => apply (inv_set_funcs _ HInv)
         | |- _ (set_func_count _ _) => apply (inv_set_func_count _ HInv)
         | |- _ (set_when_id _ _) => apply (inv_set_when_id _ HInv)
         | |- _ (set_loop_id _ _) => apply (inv_set_loop_id _ HInv)
         | |- _ (set_in_function _ _) => apply (inv_set_in_function _ HInv)
         end.

(** One step of a simulation proof, by the shape of the computation. *)
Ltac sim_step HInv :=
  match goal with
  | H : Sim _ ?m |- Sim _ ?m => exact H
  | H : forall x, Sim _ (?m x) |- Sim _ (?m _) => apply H
  | |- Sim _ (bind _ _) => apply Sim_bind; [|intros ?]
  | |- Sim _ (ret _) => apply Sim_ret
  | |- Sim _ out_of_fuel => apply Sim_out_of_fuel
  | |- Sim _ (ifM _ _ _) => apply Sim_ifM
  | |- Sim _ (if ?b then _ else _) => destruct b
  | |- Sim _ (match ?x with _ => _ end) => destruct x
  | |- Sim _ (cg_get _) => apply Sim_cg_get
  | |- Sim _ (cg _) => apply Sim_cg; keep_inv HInv
  | |- Sim _ (emit _) => apply Sim_cg; keep_inv HInv
  | |- Sim _ (lex _) => apply Sim_lex
  | |- Sim _ peek => apply Sim_lex
  | |- Sim _ (peek_n _) => apply Sim_lex
  | |- Sim _ advance => apply Sim_lex
  | |- Sim _ skip_whitespace => apply Sim_lex
  | |- Sim _ skip_line => apply Sim_lex
  | |- Sim _ (match_ _) => apply Sim_lex
  | |- Sim _ parse_ident => apply Sim_lex
  | |- Sim _ parse_string => apply Sim_lex
  | |- Sim _ parse_number => apply Sim_lex
  | |- Sim _ skip_block_decl => apply Sim_lex
  | |- Sim _ (pos_add _) => apply Sim_lex
  | |- Sim _ get_pos => apply Sim_lex
  | |- Sim _ (put_pos _) => apply Sim_lex
  | |- Sim _ in_source => apply Sim_lex
  end.

Section SimulationExpr.

Variable Inv : CodeGen -> Prop.
Hypothesis HInv : emitter_invariant Inv.

Lemma Sim_accept ch : Sim Inv (accept ch).
Proof. unfold accept. repeat sim_step HInv. Qed.

Ltac sim0 :=
  match goal with
  | |- Sim _ (accept _) => apply Sim_accept
  | _ => sim_step HInv
  end.

Lemma Sim_syscall3 expr nr : Sim Inv expr -> Sim Inv (syscall3 expr nr).
Proof. intro He. unfold syscall3. repeat sim0. Qed.

Lemma Sim_syscall_close expr : Sim Inv expr -> Sim Inv (syscall_close expr).
Proof. intro He. unfold syscall_close. repeat sim0. Qed.

Lemma Sim_syscall_mmap expr : Sim Inv expr -> Sim Inv (syscall_mmap expr).
Proof. intro He. unfold syscall_mmap. repeat sim0. Qed.

Lemma Sim_call_args bounded expr :
  Sim Inv expr -> forall fuel argc, Sim Inv (call_args bounded expr fuel argc).
Proof.
  intro He. induction fuel as [|fuel IH]; intro argc; cbn [call_args];
    repeat sim0.
Qed.

Lemma Sim_call_tail name argc : Sim Inv (call_tail name argc).
Proof. unfold call_tail. repeat sim0. Qed.

Lemma Sim_compile_string_literal : Sim Inv compile_string_literal.
Proof. unfold compile_string_literal. repeat sim0. Qed.

Ltac sim1 :=
  match goal with
  | |- Sim _ (syscall3 _ _) => apply Sim_syscall3
  | |- Sim _ (syscall_close _) => apply Sim_syscall_close
  | |- Sim _ (syscall_mmap _) => apply Sim_syscall_mmap
  | |- Sim _ (call_args _ _ _ _) => apply Sim_call_args
  | |- Sim _ (call_tail _ _) => apply Sim_call_tail
  | |- Sim _ compile_string_literal => apply Sim_compile_string_literal
  | _ => sim0
  end.

Lemma Sim_compile_syscall_expr expr name :
  Sim Inv expr -> Sim Inv (compile_syscall_expr expr name).
Proof. intro He. unfold compile_syscall_expr. repeat sim1. Qed.

Lemma Sim_compile_ident_expr expr fuel :
  Sim Inv expr -> Sim Inv (compile_ident_expr expr fuel).
Proof.
  intro He. unfold compile_ident_expr.
  repeat first [ apply Sim_compile_syscall_expr; assumption | sim1 ].
Qed.

Lemma Sim_compile_primary expr fuel :
  Sim Inv expr -> Sim Inv (compile_primary expr fuel).
Proof.
  intro He. unfold compile_primary.
  repeat match goal with
         | |- Sim _ (compile_ident_expr _ _) => apply Sim_compile_ident_expr
         | _ => sim1
         end.
Qed.

Lemma Sim_binops expr : Sim Inv expr -> forall fuel, Sim Inv (binops expr fuel).
Proof.
  intro He. induction fuel as [|fuel IH]; cbn [binops]; repeat sim1.
Qed.

Lemma Sim_compile_expr fuel : Sim Inv (compile_expr fuel).
Proof.
  induction fuel as [|fuel IH]; cbn [compile_expr].
  - apply Sim_out_of_fuel.
  - repeat match goal with
           | |- Sim _ (compile_primary _ _) => apply Sim_compile_primary
           | |- Sim _ (binops _ _) => apply Sim_binops
           | _ => sim1
           end.
Qed.

Ltac sim2 :=
  match goal with
  | |- Sim _ (compile_expr _) => apply Sim_compile_expr
  | _ => sim1
  end.

(** Proves [Sim] for a primitive given as a function of the whole state. *)
Ltac sim_prim :=
  let c1 := fresh "c" in
  let c2 := fresh "c" in
  let He := fresh "He" in
  let Hi := fresh "Hi" in
  intros c1 c2 [He Hi];
  unfold telemetry_equiv in He;
  destruct c1, c2; simpl in *;
  decompose [and] He; clear He; subst;
  cbv beta iota zeta;
  repeat match goal with
         | |- context [if ?b then _ else _] => destruct b
         end;
  simpl;
  repeat match goal with
         | |- _ /\ _ => split
         | |- related _ _ _ => unfold related
         | |- telemetry_equiv _ _ => unfold telemetry_equiv; simpl
         end;
  auto.

Lemma Sim_add_var_m name type : Sim Inv (add_var_m name type).
Proof.
  intros c1 c2 [He Hi]. unfold add_var_m.
  pose proof He as (Hs & Hp & Hl & Hd & Hll & Hg & Hfn & Hb).
  rewrite <- Hg.
  pose proof (inv_add_var Inv HInv (codegen c1) name type Hi) as Hk.
  destruct (add_var (codegen c1) name type) as [v g]. simpl in Hk.
  split; [reflexivity|]. split; [|exact Hk].
  repeat split; simpl; assumption.
Qed.

Lemma Sim_push_loop a b : Sim Inv (push_loop a b).
Proof. unfold push_loop. sim_prim. Qed.

Lemma Sim_pop_loop : Sim Inv pop_loop.
Proof. unfold pop_loop. sim_prim. Qed.

Lemma Sim_innermost_end : Sim Inv innermost_end.
Proof. unfold innermost_end. sim_prim. Qed.

Lemma Sim_fate_hook : Sim Inv fate_hook.
Proof. unfold fate_hook. sim_prim. Qed.

Lemma Sim_unified_assign key val : Sim Inv (unified_assign key val).
Proof. unfold unified_assign. sim_prim. Qed.

Lemma Sim_fate_switch on : Sim Inv (fate_switch on).
Proof. unfold fate_switch. sim_prim. Qed.

Lemma Sim_fate_limit n : Sim Inv (fate_limit n).
Proof. unfold fate_limit. sim_prim. Qed.

Lemma Sim_init_rules : Sim Inv init_rules.
Proof. unfold init_rules. sim_prim. Qed.

Lemma Sim_set_current idx : Sim Inv (set_current idx).
Proof. unfold set_current. sim_prim. Qed.

Ltac sim3 :=
  match goal with
  | |- Sim _ (add_var_m _ _) => apply Sim_add_var_m
  | |- Sim _ (push_loop _ _) => apply Sim_push_loop
  | |- Sim _ pop_loop => apply Sim_pop_loop
  | |- Sim _ innermost_end => apply Sim_innermost_end
  | |- Sim _ fate_hook => apply Sim_fate_hook
  | |- Sim _ (unified_assign _ _) => apply Sim_unified_assign
  | |- Sim _ (fate_switch _) => apply Sim_fate_switch
  | |- Sim _ (fate_limit _) => apply Sim_fate_limit
  | |- Sim _ init_rules => apply Sim_init_rules
  | |- Sim _ (set_current _) => apply Sim_set_current
  | _ => sim2
  end.

Lemma Sim_compile_out : Sim Inv compile_out.
Proof. unfold compile_out. repeat sim3. Qed.

Lemma Sim_compile_emit : Sim Inv compile_emit.
Proof. unfold compile_emit. repeat sim3. Qed.

Lemma Sim_fn_params : forall fuel ps, Sim Inv (fn_params fuel ps).
Proof. induction fuel as [|fuel IH]; intro ps; cbn [fn_params]; repeat sim3. Qed.

Lemma Sim_compile_fn_def fuel : Sim Inv (compile_fn_def fuel).
Proof.
  unfold compile_fn_def.
  repeat match goal with
         | |- Sim _ (fn_params _ _) => apply Sim_fn_params
         | _ => sim3
         end.
Qed.

Lemma Sim_compile_when expr block :
  Sim Inv expr -> Sim Inv block -> Sim Inv (compile_when expr block).
Proof. intros He Hb. unfold compile_when. repeat sim3. Qed.

Lemma Sim_compile_loop block : Sim Inv block -> Sim Inv (compile_loop block).
Proof. intros Hb. unfold compile_loop. repeat sim3. Qed.

Lemma Sim_compile_break : Sim Inv compile_break.
Proof. unfold compile_break. repeat sim3. Qed.

Lemma Sim_compile_return expr : Sim Inv expr -> Sim Inv (compile_return expr).
Proof. intros He. unfold compile_return. repeat sim3. Qed.

Lemma Sim_compile_assign expr name :
  Sim Inv expr -> Sim Inv (compile_assign expr name).
Proof. intros He. unfold compile_assign. repeat sim3. Qed.

Lemma Sim_block_loop stmt :
  Sim Inv stmt -> forall fuel, Sim Inv (block_loop stmt fuel).
Proof. intros Hs. induction fuel as [|fuel IH]; cbn [block_loop]; repeat sim3. Qed.

Lemma Sim_compile_block stmt fuel :
  Sim Inv stmt -> Sim Inv (compile_block stmt fuel).
Proof.
  intros Hs. unfold compile_block.
  repeat match goal with
         | |- Sim _ (block_loop _ _) => apply Sim_block_loop
         | _ => sim3
         end.
Qed.

Lemma Sim_unified_pairs : forall fuel, Sim Inv (unified_pairs fuel).
Proof. induction fuel as [|fuel IH]; cbn [unified_pairs]; repeat sim3. Qed.

Lemma Sim_parse_unified_block fuel : Sim Inv (parse_unified_block fuel).
Proof.
  unfold parse_unified_block.
  repeat match goal with
         | |- Sim _ (unified_pairs _) => apply Sim_unified_pairs
         | _ => sim3
         end.
Qed.

Lemma Sim_first_match rules otherwise :
  Forall (fun r => Sim Inv (snd r)) rules -> Sim Inv otherwise ->
  Sim Inv (first_match rules otherwise).
Proof.
  intros Hr Ho. induction Hr as [|[kw body] rules Hb Hr IH]; cbn [first_match].
  - exact Ho.
  - apply Sim_ifM; [apply Sim_lex | exact Hb | exact IH].
Qed.

Lemma Sim_any_match kws : Sim Inv (any_match kws).
Proof. induction kws as [|kw kws IH]; cbn [any_match]; repeat sim3. Qed.

Lemma Sim_stmt_exit expr : Sim Inv expr -> Sim Inv (stmt_exit expr).
Proof. intros He. unfold stmt_exit. repeat sim3. Qed.

Lemma Sim_stmt_poke expr : Sim Inv expr -> Sim Inv (stmt_poke expr).
Proof. intros He. unfold stmt_poke. repeat sim3. Qed.

Lemma Sim_stmt_peek expr : Sim Inv expr -> Sim Inv (stmt_peek expr).
Proof. intros He. unfold stmt_peek. repeat sim3. Qed.

Lemma Sim_stmt_putchar expr : Sim Inv expr -> Sim Inv (stmt_putchar expr).
Proof. intros He. unfold stmt_putchar. repeat sim3. Qed.

Lemma Sim_stmt_ident expr fuel : Sim Inv expr -> Sim Inv (stmt_ident expr fuel).
Proof.
  intros He. unfold stmt_ident.
  repeat match goal with
         | |- Sim _ (compile_assign _ _) => apply Sim_compile_assign
         | _ => sim3
         end.
Qed.

Ltac sim4 :=
  match goal with
  | |- Sim _ compile_out => apply Sim_compile_out
  | |- Sim _ compile_emit => apply Sim_compile_emit
  | |- Sim _ (compile_fn_def _) => apply Sim_compile_fn_def
  | |- Sim _ (compile_when _ _) => apply Sim_compile_when
  | |- Sim _ (compile_loop _) => apply Sim_compile_loop
  | |- Sim _ compile_break => apply Sim_compile_break
  | |- Sim _ (compile_return _) => apply Sim_compile_return
  | |- Sim _ (compile_block _ _) => apply Sim_compile_block
  | |- Sim _ (parse_unified_block _) => apply Sim_parse_unified_block
  | |- Sim _ (any_match _) => apply Sim_any_match
  | |- Sim _ (stmt_exit _) => apply Sim_stmt_exit
  | |- Sim _ (stmt_poke _) => apply Sim_stmt_poke
  | |- Sim _ (stmt_peek _) => apply Sim_stmt_peek
  | |- Sim _ (stmt_putchar _) => apply Sim_stmt_putchar
  | |- Sim _ (stmt_ident _ _) => apply Sim_stmt_ident
  | _ => sim3
  end.

Lemma Sim_statement_rules expr block fuel :
  Sim Inv expr -> Sim Inv block ->
  Forall (fun r => Sim Inv (snd r)) (statement_rules expr block fuel).
Proof.
  intros He Hb. unfold statement_rules.
  repeat (apply Forall_cons; [cbn [snd]; repeat sim4|]).
  apply Forall_nil.
Qed.

Lemma Sim_compile_statement_body expr block fuel :
  Sim Inv expr -> Sim Inv block ->
  Sim Inv (compile_statement_body expr block fuel).
Proof.
  intros He Hb. unfold compile_statement_body.
  repeat match goal with
         | |- Sim _ (first_match (statement_rules _ _ _) _) =>
             apply Sim_first_match; [apply Sim_statement_rules; assumption|]
         | |- Sim _ (first_match _ _) =>
             apply Sim_first_match;
             [apply Forall_cons; [cbn [snd]|apply Forall_nil]|]
         | _ => sim4
         end.
Qed.

Lemma Sim_compile_statement : forall fuel, Sim Inv (compile_statement fuel).
Proof.
  induction fuel as [|fuel IH]; cbn [compile_statement].
  - apply Sim_out_of_fuel.
  - apply Sim_compile_statement_body.
    + apply Sim_compile_expr.
    + apply Sim_compile_block. exact IH.
Qed.

Lemma Sim_body_loop stmt body_end :
  Sim Inv stmt -> forall fuel, Sim Inv (body_loop stmt body_end fuel).
Proof. intros Hs. induction fuel as [|fuel IH]; cbn [body_loop]; repeat sim3. Qed.

Lemma Sim_compile_function_body fuel idx fn :
  Sim Inv (compile_function_body fuel idx fn).
Proof.
  unfold compile_function_body.
  repeat match goal with
         | |- Sim _ (body_loop _ _ _) =>
             apply Sim_body_loop; apply Sim_compile_statement
         | _ => sim4
         end.
Qed.

Lemma Sim_pass1 : forall fuel, Sim Inv (pass1 fuel).
Proof. induction fuel as [|fuel IH]; cbn [pass1]; repeat sim4. Qed.

Lemma Sim_pass2 : forall fuel, Sim Inv (pass2 fuel).
Proof.
  induction fuel as [|fuel IH]; cbn [pass2];
    repeat match goal with
           | |- Sim _ (compile_statement _) => apply Sim_compile_statement
           | _ => sim4
           end.
Qed.

Lemma Sim_pass3 : forall fuel i, Sim Inv (pass3 fuel i).
Proof.
  induction fuel as [|fuel IH]; intro i; cbn [pass3];
    repeat match goal with
           | |- Sim _ (compile_function_body _ _ _) =>
               apply Sim_compile_function_body
           | _ => sim4
           end.
Qed.

Lemma Sim_compile_passes fuel : Sim Inv (compile_passes fuel).
Proof.
  unfold compile_passes.
  repeat match goal with
         | |- Sim _ (pass1 _) => apply Sim_pass1
         | |- Sim _ (pass2 _) => apply Sim_pass2
         | |- Sim _ (pass3 _ _) => apply Sim_pass3
         | _ => sim4
         end.
Qed.

End SimulationExpr.

(* ================================================================== *)
(** ** Invariants along a run *)

(** What [Sim] says of a single run: the invariant is kept. *)
Lemma Sim_keeps (Inv : CodeGen -> Prop) {A} (m : M A) c a c' :
  Sim Inv m -> Inv (codegen c) -> m c = Some (a, c') -> Inv (codegen c').
Proof.
  intros Hs Hi Hm.
  assert (Hr : related Inv c c).
  { split; [|exact Hi]. repeat split. }
  specialize (Hs c c Hr). rewrite Hm in Hs. destruct Hs as [_ [_ Hk]]. exact Hk.
Qed.

Lemma run_calls_keeps (Inv : CodeGen -> Prop) :
  emitter_invariant Inv ->
  forall calls cg, Inv cg -> Inv (run_calls calls cg).
Proof.
  intros HInv. unfold run_calls.
  induction calls as [|call calls IH]; intros cg Hg; simpl.
  - exact Hg.
  - apply IH. destruct call; simpl.
    + apply (keep_emit_byte _ HInv); exact Hg.
    + apply (keep_emit_bytes _ HInv); exact Hg.
    + apply (keep_emit_u32 _ HInv); exact Hg.
    + apply (keep_emit_i32 _ HInv); exact Hg.
    + apply (keep_emit_u64 _ HInv); exact Hg.
    + apply (keep_add_label _ HInv); exact Hg.
    + apply (keep_add_fixup _ HInv); exact Hg.
Qed.

(** *** Lists as buffers *)

Lemma zlength_app {A} (l1 l2 : list A) :
  zlength (l1 ++ l2) = zlength l1 + zlength l2.
Proof. unfold zlength. rewrite length_app. lia. Qed.

Lemma zlength_nonneg {A} (l : list A) : 0 <= zlength l.
Proof. unfold zlength. lia. Qed.

Lemma store_nat_length l : forall i v, length (store_nat l i v) = length l.
Proof.
  induction l as [|x l IH]; intros [|i] v; simpl; try reflexivity.
  rewrite IH. reflexivity.
Qed.

Lemma store_length l i v : length (store l i v) = length l.
Proof. unfold store. destruct (i <? 0); [reflexivity|apply store_nat_length]. Qed.

Lemma patch_i32_length c p off : length (patch_i32 c p off) = length c.
Proof. unfold patch_i32. rewrite !store_length. reflexivity. Qed.

(** *** The emitters and the code buffer *)

Lemma emit_byte_room cg b :
  code_pos cg < code_cap cg ->
  emit_byte cg b = set_code cg (code cg ++ [to_u8 b]).
Proof.
  intro H. unfold emit_byte.
  destruct (code_pos cg <? code_cap cg) eqn:E; [reflexivity|].
  apply Z.ltb_ge in E. lia.
Qed.

Lemma emit_byte_full cg b :
  code_cap cg <= code_pos cg -> emit_byte cg b = cg.
Proof.
  intro H. unfold emit_byte.
  destruct (code_pos cg <? code_cap cg) eqn:E; [|reflexivity].
  apply Z.ltb_lt in E. lia.
Qed.

Lemma emit_byte_cap cg b : code_cap (emit_byte cg b) = code_cap cg.
Proof. unfold emit_byte. destruct (_ <? _); reflexivity. Qed.

Lemma emit_byte_within cg b :
  within_capacity cg -> within_capacity (emit_byte cg b).
Proof.
  unfold within_capacity, emit_byte. intro H.
  destruct (code_pos cg <? code_cap cg) eqn:E; [|exact H].
  apply Z.ltb_lt in E. unfold code_pos in *. simpl.
  rewrite zlength_app. unfold zlength at 2. simpl. lia.
Qed.

Lemma resolve_scan_code_length ls fx : forall cg,
  length (code (resolve_scan ls fx cg)) = length (code cg).
Proof.
  induction ls as [|[name target] ls IH]; intro cg; simpl.
  - reflexivity.
  - destruct (name_eqb (snd fx) name); [|apply IH].
    simpl. apply patch_i32_length.
Qed.

Lemma resolve_scan_frame ls fx : forall cg,
  resolve_scan ls fx cg = set_code cg (code (resolve_scan ls fx cg)).
Proof.
  induction ls as [|[name target] ls IH]; intro cg; simpl.
  - destruct cg; reflexivity.
  - destruct (name_eqb (snd fx) name); [|apply IH]. reflexivity.
Qed.

Lemma resolve_fixups_fold fs : forall cg ls,
  labels cg = ls ->
  fold_left (fun cg fx => resolve_scan (labels cg) fx cg) fs cg
  = fold_left (fun cg fx => resolve_scan ls fx cg) fs cg.
Proof.
  induction fs as [|fx fs IH]; intros cg ls Hl; simpl.
  - reflexivity.
  - rewrite Hl. apply IH. rewrite resolve_scan_frame. simpl. exact Hl.
Qed.

Lemma fold_resolve_code_length ls fs : forall cg,
  length (code (fold_left (fun cg fx => resolve_scan ls fx cg) fs cg))
  = length (code cg).
Proof.
  induction fs as [|fx fs IH]; intro cg; simpl.
  - reflexivity.
  - rewrite IH. apply resolve_scan_code_length.
Qed.

Lemma fold_resolve_frame ls fs : forall cg,
  fold_left (fun cg fx => resolve_scan ls fx cg) fs cg
  = set_code cg (code (fold_left (fun cg fx => resolve_scan ls fx cg) fs cg)).
Proof.
  induction fs as [|fx fs IH]; intro cg; simpl.
  - destruct cg; reflexivity.
  - rewrite IH. rewrite (resolve_scan_frame ls fx cg) at 1. reflexivity.
Qed.

(** [resolve_fixups] changes nothing but bytes of the code buffer, and not
    their number. *)
Lemma resolve_fixups_frame cg :
  resolve_fixups cg = set_code cg (code (resolve_fixups cg)).
Proof.
  unfold resolve_fixups. rewrite (resolve_fixups_fold _ _ (labels cg) eq_refl).
  apply fold_resolve_frame.
Qed.

Lemma resolve_fixups_code_pos cg : code_pos (resolve_fixups cg) = code_pos cg.
Proof.
  unfold resolve_fixups, code_pos, zlength.
  rewrite (resolve_fixups_fold _ _ (labels cg) eq_refl).
  rewrite fold_resolve_code_length. reflexivity.
Qed.

Lemma add_var_code cg n t : code (snd (add_var cg n t)) = code cg.
Proof.
  unfold add_var. destruct (var_count cg >=? MAX_VARS); [reflexivity|].
  cbv zeta. destruct (in_function _); reflexivity.
Qed.

Lemma add_var_code_cap cg n t : code_cap (snd (add_var cg n t)) = code_cap cg.
Proof.
  unfold add_var. destruct (var_count cg >=? MAX_VARS); [reflexivity|].
  cbv zeta. destruct (in_function _); reflexivity.
Qed.

Lemma emit_bytes_app cg l1 l2 :
  emit_bytes (emit_bytes cg l1) l2 = emit_bytes cg (l1 ++ l2).
Proof. unfold emit_bytes. rewrite fold_left_app. reflexivity. Qed.

Lemma emit_byte_frame cg b : emit_byte cg b = set_code cg (code (emit_byte cg b)).
Proof.
  unfold emit_byte. destruct (code_pos cg <? code_cap cg).
  - reflexivity.
  - destruct cg; reflexivity.
Qed.

Lemma emit_bytes_frame l : forall cg,
  emit_bytes cg l = set_code cg (code (emit_bytes cg l)).
Proof.
  unfold emit_bytes. induction l as [|b l IH]; intro cg; simpl.
  - destruct cg; reflexivity.
  - rewrite IH. rewrite (emit_byte_frame cg b) at 1. reflexivity.
Qed.

(** The bytes that fit are appended, the others are dropped. *)
Lemma emit_bytes_code l : forall cg,
  within_capacity cg ->
  code (emit_bytes cg l)
  = code cg ++ firstn (Z.to_nat (code_cap cg - code_pos cg)) (map to_u8 l).
Proof.
  unfold emit_bytes. induction l as [|b l IH]; intros cg Hw; simpl.
  - rewrite firstn_nil, app_nil_r. reflexivity.
  - pose proof (emit_byte_within cg b Hw) as Hw'.
    rewrite (IH _ Hw'). rewrite emit_byte_cap.
    unfold within_capacity in Hw.
    destruct (Z_lt_le_dec (code_pos cg) (code_cap cg)) as [Hlt|Hge].
    + rewrite (emit_byte_room cg b Hlt). unfold code_pos at 1. simpl code.
      rewrite zlength_app. change (zlength [to_u8 b]) with 1.
      fold (code_pos cg).
      replace (Z.to_nat (code_cap cg - code_pos cg))
        with (S (Z.to_nat (code_cap cg - (code_pos cg + 1)))) by lia.
      simpl. rewrite <- app_assoc. reflexivity.
    + rewrite (emit_byte_full cg b Hge).
      replace (Z.to_nat (code_cap cg - code_pos cg)) with O by lia.
      reflexivity.
Qed.

Lemma emit_bytes_code_room l cg :
  code_pos cg + zlength l <= code_cap cg ->
  code (emit_bytes cg l) = code cg ++ map to_u8 l.
Proof.
  intro H. pose proof (zlength_nonneg l) as Hl.
  rewrite emit_bytes_code by (unfold within_capacity; lia).
  rewrite firstn_all2; [reflexivity|].
  rewrite length_map. unfold zlength in H. lia.
Qed.

Lemma emit_u32_bytes cg v :
  emit_u32 cg v
  = emit_bytes cg [Z.land v 255; Z.land (Z.shiftr v 8) 255;
                   Z.land (Z.shiftr v 16) 255; Z.land (Z.shiftr v 24) 255].
Proof. reflexivity. Qed.

Lemma emit_u64_bytes cg v :
  emit_u64 cg v
  = emit_bytes cg
      (let lo := Z.land v 4294967295 in
       let hi := Z.land (Z.shiftr v 32) 4294967295 in
       [Z.land lo 255; Z.land (Z.shiftr lo 8) 255;
        Z.land (Z.shiftr lo 16) 255; Z.land (Z.shiftr lo 24) 255;
        Z.land hi 255; Z.land (Z.shiftr hi 8) 255;
        Z.land (Z.shiftr hi 16) 255; Z.land (Z.shiftr hi 24) 255]).
Proof.
  unfold emit_u64. rewrite !emit_u32_bytes, emit_bytes_app. reflexivity.
Qed.

(** *** The cursor stays within the capacity *)

Lemma within_capacity_invariant : emitter_invariant within_capacity.
Proof.
  constructor; intros; try exact H.
  - apply emit_byte_within; exact H.
  - unfold add_label. destruct (_ <? _); exact H.
  - unfold add_fixup, emit_u32. repeat apply emit_byte_within.
    destruct (_ <? _); exact H.
  - unfold within_capacity, code_pos.
    rewrite add_var_code, add_var_code_cap. exact H.
Qed.

Lemma compile_split fuel c c' :
  compile fuel c = Some (tt, c') ->
  exists c0, compile_passes fuel c = Some (tt, c0) /\
             c' = set_codegen c0 (resolve_fixups (codegen c0)).
Proof.
  unfold compile, bind, cg. intro H.
  destruct (compile_passes fuel c) as [[[] c0]|]; [|discriminate].
  exists c0. split; [reflexivity|]. congruence.
Qed.

(** C8.  The code-buffer cursor never exceeds the capacity.  At capacity
    [emit_byte] returns the code generator as it received it: the byte is
    dropped, buffer and cursor are untouched.  So [code_pos <= code_cap]
    holds after any sequence of emitter calls, from any state that satisfies
    it, in particular from the initial one, and at the end of every
    compilation. *)
Theorem C8_cursor_never_exceeds_capacity :
  (forall cg b, code_pos cg = code_cap cg -> emit_byte cg b = cg) /\
  (forall calls cg,
     code_pos cg <= code_cap cg ->
     code_pos (run_calls calls cg) <= code_cap (run_calls calls cg)) /\
  (forall calls,
     code_pos (run_calls calls codegen_init)
     <= code_cap (run_calls calls codegen_init)) /\
  (forall fuel text c,
     compile fuel (compiler_init text) = Some (tt, c) ->
     code_pos (codegen c) <= code_cap (codegen c)).
Proof.
  split; [|split; [|split]].
  - intros cg b H. apply emit_byte_full. lia.
  - intros calls cg H.
    apply (run_calls_keeps within_capacity within_capacity_invariant calls cg H).
  - intro calls.
    apply (run_calls_keeps within_capacity within_capacity_invariant).
    unfold within_capacity, code_pos, zlength. simpl. unfold MAX_CODE. lia.
  - intros fuel text c H.
    apply compile_split in H. destruct H as (c0 & Hp & ->).
    assert (Hw : within_capacity (codegen c0)).
    { apply (Sim_keeps within_capacity (compile_passes fuel)
               (compiler_init text) tt c0).
      - apply Sim_compile_passes. apply within_capacity_invariant.
      - unfold compiler_init.
        destruct (platform_probe platform_init fate_init) as [plat f].
        unfold within_capacity, code_pos, zlength. simpl. unfold MAX_CODE. lia.
      - exact Hp. }
    simpl. rewrite resolve_fixups_code_pos.
    rewrite (resolve_fixups_frame (codegen c0)). exact Hw.
Qed.

(* ================================================================== *)
(** ** Running the primitives *)

Lemma set_pos_same c : set_pos c (pos c) = c.
Proof. destruct c; reflexivity. Qed.

Lemma set_codegen_same c : set_codegen c (codegen c) = c.
Proof. destruct c; reflexivity. Qed.

Lemma run_bind {A B} (m : M A) (k : A -> M B) c a c' :
  m c = Some (a, c') -> bind m k c = k a c'.
Proof. intro H. unfold bind. rewrite H. reflexivity. Qed.





Lemma run_get_pos c : get_pos c = Some (pos c, c).
Proof. unfold get_pos, lex. rewrite set_pos_same. reflexivity. Qed.


Lemma run_skip_whitespace c :
  skip_whitespace c
  = Some (tt, set_pos c (skip_whitespace_at (source c) (len c) (pos c))).
Proof. reflexivity. Qed.

Lemma run_pos_add n c : pos_add n c = Some (tt, set_pos c (pos c + n)).
Proof. reflexivity. Qed.


Lemma run_parse_string c :
  parse_string c
  = Some (fst (parse_string_at (source c) (len c) (pos c)),
          set_pos c (snd (parse_string_at (source c) (len c) (pos c)))).
Proof.
  unfold parse_string, lex.
  destruct (parse_string_at (source c) (len c) (pos c)); reflexivity.
Qed.




(* ================================================================== *)
(** ** Computations that emit nothing *)













(** *** Keyword dispatch *)







(* ================================================================== *)
(** ** C2: the rule subsystem and the emitted code *)






(* ================================================================== *)
(** ** C3: the program header *)

Lemma le_value_map_seq (v : Z) : forall n k : nat,
  le_value (map (fun i => Z.land (Z.shiftr v (8 * Z.of_nat i)) 255) (seq k n))
  = (v / 2 ^ (8 * Z.of_nat k)) mod 2 ^ (8 * Z.of_nat n).
Proof.
  induction n as [|n IH]; intro k.
  - simpl. rewrite Z.mod_1_r. reflexivity.
  - cbn [seq map le_value fold_right]. fold (le_value).
    change (fold_right (fun b acc : Z => b + 256 * acc) 0) with le_value.
    rewrite IH.
    change 255 with (Z.ones 8). rewrite Z.land_ones by lia.
    rewrite Z.shiftr_div_pow2 by lia.
    replace (8 * Z.of_nat (S n)) with (8 + 8 * Z.of_nat n) by lia.
    rewrite Z.pow_add_r by lia.
    rewrite Z.rem_mul_r by (try apply Z.pow_pos_nonneg; lia).
    replace (8 * Z.of_nat (S k)) with (8 * Z.of_nat k + 8) by lia.
    rewrite Z.pow_add_r by lia.
    rewrite Z.div_div by (try apply Z.pow_pos_nonneg; lia).
    reflexivity.
Qed.

Lemma le_value_le_bytes n v : le_value (le_bytes n v) = v mod 2 ^ (8 * Z.of_nat n).
Proof.
  unfold le_bytes. rewrite le_value_map_seq. simpl (2 ^ (8 * Z.of_nat 0)).
  rewrite Z.div_1_r. reflexivity.
Qed.





Lemma codegen_compiler_init text : codegen (compiler_init text) = codegen_init.
Proof.
  unfold compiler_init.
  destruct (platform_probe platform_init fate_init) as [plat f]. reflexivity.
Qed.







(* ================================================================== *)
(** ** C1: fixup resolution *)

(** *** Windows of a buffer *)

Lemma zlength_store l i v : zlength (store l i v) = zlength l.
Proof. unfold zlength. rewrite store_length. reflexivity. Qed.

Lemma bytes_at_at (n : nat) (pre bytes post : list Z) :
  length bytes = n ->
  bytes_at n (pre ++ bytes ++ post) (zlength pre) = Some bytes.
Proof.
  intro Hn. unfold bytes_at.
  pose proof (zlength_nonneg pre) as Hp.
  rewrite !zlength_app.
  pose proof (zlength_nonneg post) as Hq.
  assert (Hb : zlength bytes = Z.of_nat n) by (unfold zlength; lia).
  destruct (Z.leb_spec 0 (zlength pre)); [|lia].
  destruct (Z.leb_spec (zlength pre + Z.of_nat n)
              (zlength pre + (zlength bytes + zlength post))); [|lia].
  simpl. f_equal.
  unfold zlength. rewrite Nat2Z.id.
  rewrite skipn_app, skipn_all, Nat.sub_diag. simpl.
  rewrite firstn_app, <- Hn, firstn_all, Nat.sub_diag. simpl.
  apply app_nil_r.
Qed.

Lemma bytes_at_app_left n l1 l2 off :
  off + Z.of_nat n <= zlength l1 ->
  bytes_at n (l1 ++ l2) off = bytes_at n l1 off.
Proof.
  intro H. unfold bytes_at. rewrite zlength_app.
  pose proof (zlength_nonneg l2) as H2.
  destruct (Z.leb_spec 0 off); simpl; [|reflexivity].
  destruct (Z.leb_spec (off + Z.of_nat n) (zlength l1)); [|lia].
  destruct (Z.leb_spec (off + Z.of_nat n) (zlength l1 + zlength l2)); [|lia].
  f_equal. unfold zlength in *.
  rewrite skipn_app, firstn_app.
  rewrite length_skipn.
  replace (n - (length l1 - Z.to_nat off))%nat with O by lia.
  simpl. apply app_nil_r.
Qed.

Lemma skipn_store_nat_before : forall l i p v,
  (i < p)%nat -> skipn p (store_nat l i v) = skipn p l.
Proof.
  induction l as [|x l IH]; intros i p v H.
  - destruct i; reflexivity.
  - destruct p as [|p]; [lia|]. destruct i as [|i]; simpl.
    + reflexivity.
    + apply IH. lia.
Qed.

Lemma skipn_store_nat_after : forall l i p v,
  (p <= i)%nat -> skipn p (store_nat l i v) = store_nat (skipn p l) (i - p) v.
Proof.
  induction l as [|x l IH]; intros i p v H.
  - destruct i, p; reflexivity.
  - destruct p as [|p].
    + rewrite Nat.sub_0_r. reflexivity.
    + destruct i as [|i]; [lia|]. simpl. apply IH. lia.
Qed.

Lemma firstn_store_nat_after : forall l i n v,
  (n <= i)%nat -> firstn n (store_nat l i v) = firstn n l.
Proof.
  induction l as [|x l IH]; intros i n v H.
  - destruct i; reflexivity.
  - destruct n as [|n]; [reflexivity|]. destruct i as [|i]; [lia|].
    simpl. f_equal. apply IH. lia.
Qed.

(** A store outside a window leaves the window as it is. *)
Lemma bytes_at_store_outside n l i v p :
  i < p \/ p + Z.of_nat n <= i ->
  bytes_at n (store l i v) p = bytes_at n l p.
Proof.
  intro H. unfold bytes_at. rewrite zlength_store.
  destruct ((0 <=? p) && (p + Z.of_nat n <=? zlength l)) eqn:E; [|reflexivity].
  apply andb_prop in E. destruct E as [E1 E2].
  apply Z.leb_le in E1. f_equal. unfold store.
  destruct (Z.ltb_spec i 0); [reflexivity|].
  destruct H as [H|H].
  - rewrite skipn_store_nat_before by lia. reflexivity.
  - rewrite skipn_store_nat_after by lia.
    rewrite firstn_store_nat_after by lia. reflexivity.
Qed.

Lemma store_nat_middle pre x post v :
  store_nat (pre ++ x :: post) (length pre) v = pre ++ v :: post.
Proof. induction pre as [|y pre IH]; simpl; [reflexivity|]. rewrite IH. reflexivity. Qed.

Lemma store_middle pre x post v :
  store (pre ++ x :: post) (zlength pre) v = pre ++ v :: post.
Proof.
  unfold store. pose proof (zlength_nonneg pre).
  destruct (Z.ltb_spec (zlength pre) 0); [lia|].
  unfold zlength. rewrite Nat2Z.id. apply store_nat_middle.
Qed.

(** A buffer that holds four bytes at [p], split around them. *)
Lemma split_window (l : list Z) p :
  0 <= p -> p + 4 <= zlength l ->
  exists (pre : list Z) x0 x1 x2 x3 post,
    l = pre ++ x0 :: x1 :: x2 :: x3 :: post /\ zlength pre = p.
Proof.
  intros H0 H4. unfold zlength in *.
  exists (firstn (Z.to_nat p) l).
  pose proof (firstn_skipn (Z.to_nat p) l) as Hs.
  pose proof (length_skipn (Z.to_nat p) l) as Hl.
  destruct (skipn (Z.to_nat p) l) as [|x0 [|x1 [|x2 [|x3 post]]]];
    simpl in Hl; try lia.
  exists x0, x1, x2, x3, post. split; [symmetry; exact Hs|].
  rewrite length_firstn. lia.
Qed.

(** *** The displacement and its four bytes *)

Lemma to_i32_to_u64 x : to_i32 (to_u64 x) = to_i32 x.
Proof.
  unfold to_i32, to_u64.
  assert (H : (x mod 2 ^ 64 + 2 ^ 31) mod 2 ^ 32 = (x + 2 ^ 31) mod 2 ^ 32).
  { rewrite (Z.mod_eq x (2 ^ 64)) by lia.
    replace (x - 2 ^ 64 * (x / 2 ^ 64) + 2 ^ 31)
      with (x + 2 ^ 31 + (- (x / 2 ^ 64) * 2 ^ 32) * 2 ^ 32).
    - apply Z.mod_add. lia.
    - change (2 ^ 64) with (2 ^ 32 * 2 ^ 32). ring. }
  rewrite H. reflexivity.
Qed.

Lemma to_i32_small x : - 2 ^ 31 <= x < 2 ^ 31 -> to_i32 x = x.
Proof. intro H. unfold to_i32. rewrite Z.mod_small by lia. lia. Qed.

Lemma to_i32_mod x : to_i32 (x mod 2 ^ 32) = to_i32 x.
Proof.
  unfold to_i32. f_equal. rewrite Z.add_mod_idemp_l by lia. reflexivity.
Qed.

Lemma to_u8_land x : to_u8 (Z.land x 255) = Z.land x 255.
Proof.
  unfold to_u8. change 255 with (Z.ones 8). rewrite Z.land_ones by lia.
  apply Z.mod_mod. lia.
Qed.

Lemma patch_bytes_le_bytes offset : patch_bytes offset = le_bytes 4 offset.
Proof.
  unfold patch_bytes, le_bytes. rewrite !to_u8_land.
  cbn [map seq]. rewrite Z.shiftr_0_r. reflexivity.
Qed.

Lemma patch_bytes_decode offset :
  - 2 ^ 31 <= offset < 2 ^ 31 ->
  to_i32 (le_value (patch_bytes offset)) = offset.
Proof.
  intro H. rewrite patch_bytes_le_bytes, le_value_le_bytes.
  change (2 ^ (8 * Z.of_nat 4)) with (2 ^ 32).
  rewrite to_i32_mod. apply to_i32_small. exact H.
Qed.

Lemma patch_i32_window c p offset :
  0 <= p -> p + 4 <= zlength c ->
  bytes_at 4 (patch_i32 c p offset) p = Some (patch_bytes offset).
Proof.
  intros H0 H4.
  destruct (split_window c p H0 H4) as (pre & x0 & x1 & x2 & x3 & post & -> & Hp).
  unfold patch_i32. rewrite <- Hp.
  rewrite store_middle.
  replace (pre ++ to_u8 (Z.land offset 255) :: x1 :: x2 :: x3 :: post)
    with ((pre ++ [to_u8 (Z.land offset 255)]) ++ x1 :: x2 :: x3 :: post)
    by (rewrite <- app_assoc; reflexivity).
  replace (zlength pre + 1) with (zlength (pre ++ [to_u8 (Z.land offset 255)]))
    by (rewrite !zlength_app; unfold zlength; cbn [length]; lia).
  rewrite store_middle.
  match goal with
  | |- context [store (?a ++ ?b :: ?r) _ ?v] =>
      replace (a ++ b :: r) with ((a ++ [b]) ++ r)
        by (rewrite <- app_assoc; reflexivity)
  end.
  replace (zlength pre + 2)
    with (zlength ((pre ++ [to_u8 (Z.land offset 255)])
                   ++ [to_u8 (Z.land (Z.shiftr offset 8) 255)]))
    by (rewrite !zlength_app; unfold zlength; cbn [length]; lia).
  rewrite store_middle.
  match goal with
  | |- context [store (?a ++ ?b :: ?r) _ ?v] =>
      replace (a ++ b :: r) with ((a ++ [b]) ++ r)
        by (rewrite <- app_assoc; reflexivity)
  end.
  replace (zlength pre + 3)
    with (zlength (((pre ++ [to_u8 (Z.land offset 255)])
                    ++ [to_u8 (Z.land (Z.shiftr offset 8) 255)])
                   ++ [to_u8 (Z.land (Z.shiftr offset 16) 255)]))
    by (rewrite !zlength_app; unfold zlength; cbn [length]; lia).
  rewrite store_middle.
  rewrite <- !app_assoc. cbn [app].
  apply (bytes_at_at 4 pre (patch_bytes offset) post). reflexivity.
Qed.

Lemma patch_i32_apart c q offset p :
  apart q p -> bytes_at 4 (patch_i32 c q offset) p = bytes_at 4 c p.
Proof.
  intros [H|H]; unfold patch_i32;
    rewrite !bytes_at_store_outside by (cbn [Z.of_nat Pos.of_succ_nat Pos.succ]; lia);
    reflexivity.
Qed.

(** *** The tables along the emitters *)

Lemma emit_bytes_within l cg :
  within_capacity cg -> within_capacity (emit_bytes cg l).
Proof. apply (keep_emit_bytes _ within_capacity_invariant). Qed.

Lemma emit_bytes_cap l : forall cg, code_cap (emit_bytes cg l) = code_cap cg.
Proof. intro cg. rewrite emit_bytes_frame. reflexivity. Qed.

Lemma emit_bytes_code_pos l cg :
  within_capacity cg ->
  code_pos (emit_bytes cg l)
  = Z.min (code_pos cg + zlength l) (code_cap cg).
Proof.
  intro Hw. unfold code_pos at 1. rewrite (emit_bytes_code l cg Hw).
  rewrite zlength_app. fold (code_pos cg).
  unfold within_capacity in Hw. unfold zlength at 1.
  rewrite length_firstn, length_map. unfold zlength.
  pose proof (zlength_nonneg (code cg)). unfold code_pos, zlength in *. lia.
Qed.

Lemma bytes_at_emit_bytes l cg p n :
  within_capacity cg -> p + Z.of_nat n <= code_pos cg ->
  bytes_at n (code (emit_bytes cg l)) p = bytes_at n (code cg) p.
Proof.
  intros Hw H. rewrite (emit_bytes_code l cg Hw).
  apply bytes_at_app_left. exact H.
Qed.

Lemma emit_bytes_labels l cg : labels (emit_bytes cg l) = labels cg.
Proof. rewrite emit_bytes_frame. reflexivity. Qed.

Lemma emit_bytes_fixups l cg : fixups (emit_bytes cg l) = fixups cg.
Proof. rewrite emit_bytes_frame. reflexivity. Qed.

Lemma fixups_wf_emit_bytes l cg :
  fixups_wf cg -> fixups_wf (emit_bytes cg l).
Proof.
  intros (Hw & Hc & Hl & H1 & H3 & H2).
  pose proof (emit_bytes_code_pos l cg Hw) as Hpos.
  pose proof (zlength_nonneg l) as Hlen.
  unfold within_capacity in Hw.
  assert (Hmono : code_pos cg <= code_pos (emit_bytes cg l)) by lia.
  split; [apply emit_bytes_within; exact Hw|].
  rewrite emit_bytes_cap, emit_bytes_labels, emit_bytes_fixups.
  split; [exact Hc|]. split; [|split; [|split]].
  - intros n t Hin. specialize (Hl n t Hin). lia.
  - intros p n Hin. specialize (H1 p n Hin). lia.
  - intros p n Hin Hfit. rewrite bytes_at_emit_bytes.
    + apply (H3 p n Hin Hfit).
    + exact Hw.
    + specialize (H1 p n Hin). cbn [Z.of_nat Pos.of_succ_nat Pos.succ]. lia.
  - exact H2.
Qed.

Lemma fixups_wf_kept : emitter_invariant fixups_wf.
Proof.
  constructor; intros g; intros; try exact H.
  - change (emit_byte g b) with (emit_bytes g [b]).
    apply fixups_wf_emit_bytes. exact H.
  - pose proof H as (Hw & Hc & Hl & H1 & H3 & H2).
    unfold add_label. destruct (_ <? _); [|exact H].
    split; [exact Hw|]. split; [exact Hc|].
    split; [|split; [exact H1|split; [exact H3|exact H2]]].
    cbn [labels set_labels]. intros n' t Hin.
    apply in_app_or in Hin. destruct Hin as [Hin|[Hin|[]]].
    + apply (Hl n' t Hin).
    + inversion Hin; subst. pose proof (zlength_nonneg (code g)).
      unfold code_pos in *. cbn [code set_labels]. lia.
  - unfold add_fixup. rewrite emit_u32_bytes.
    change [Z.land 0 255; Z.land (Z.shiftr 0 8) 255;
            Z.land (Z.shiftr 0 16) 255; Z.land (Z.shiftr 0 24) 255]
      with [0; 0; 0; 0].
    destruct (fixup_count g <? MAX_LABELS);
      [|apply fixups_wf_emit_bytes; exact H].
    destruct H as (Hw & Hc & Hl & H1 & H3 & H2).
    set (g1 := set_fixups g (fixups g ++ [(code_pos g, strncpy 63 n)])).
    assert (Hw1 : within_capacity g1) by exact Hw.
    pose proof (emit_bytes_code_pos [0; 0; 0; 0] g1 Hw1) as Hpos.
    change (zlength [0; 0; 0; 0]) with 4 in Hpos.
    change (code_pos g1) with (code_pos g) in Hpos.
    change (code_cap g1) with (code_cap g) in Hpos.
    pose proof (zlength_nonneg (code g)) as Hnn. fold (code_pos g) in Hnn.
    unfold within_capacity in Hw.
    split; [apply emit_bytes_within; exact Hw1|].
    rewrite emit_bytes_cap, emit_bytes_labels, emit_bytes_fixups.
    change (code_cap g1) with (code_cap g).
    change (labels g1) with (labels g).
    change (fixups g1) with (fixups g ++ [(code_pos g, strncpy 63 n)]).
    split; [exact Hc|]. split; [|split; [|split]].
    + intros n' t Hin. specialize (Hl n' t Hin). lia.
    + intros p n' Hin. apply in_app_or in Hin. destruct Hin as [Hin|[Hin|[]]].
      * specialize (H1 p n' Hin). lia.
      * inversion Hin; subst. lia.
    + intros p n' Hin Hfit. apply in_app_or in Hin.
      destruct Hin as [Hin|[Hin|[]]].
      * rewrite bytes_at_emit_bytes.
        -- apply (H3 p n' Hin Hfit).
        -- exact Hw1.
        -- specialize (H1 p n' Hin). change (code_pos g1) with (code_pos g).
           cbn [Z.of_nat Pos.of_succ_nat Pos.succ]. lia.
      * inversion Hin; subst.
        rewrite emit_bytes_code_room
          by (change (zlength [0; 0; 0; 0]) with 4;
              change (code_pos g1) with (code_pos g);
              change (code_cap g1) with (code_cap g); lia).
        change (code g1) with (code g).
        rewrite <- (app_nil_r (map to_u8 [0; 0; 0; 0])).
        apply (bytes_at_at 4 (code g) (map to_u8 [0; 0; 0; 0]) []).
        reflexivity.
    + intros p n1 p' n2 Hin Hin'.
      apply in_app_or in Hin. apply in_app_or in Hin'.
      destruct Hin as [Hin|[Hin|[]]]; destruct Hin' as [Hin'|[Hin'|[]]].
      * apply (H2 p n1 p' n2 Hin Hin').
      * inversion Hin'; subst. right. left. apply (H1 p n1 Hin).
      * inversion Hin; subst. right. right. apply (H1 p' n2 Hin').
      * inversion Hin; inversion Hin'; subst. left. reflexivity.
  - destruct H as (Hw & Hc & Hl & H1 & H3 & H2).
    assert (Hlab : labels (snd (add_var g n t)) = labels g).
    { unfold add_var. destruct (var_count g >=? MAX_VARS); [reflexivity|].
      cbv zeta. destruct (in_function _); reflexivity. }
    assert (Hfix : fixups (snd (add_var g n t)) = fixups g).
    { unfold add_var. destruct (var_count g >=? MAX_VARS); [reflexivity|].
      cbv zeta. destruct (in_function _); reflexivity. }
    unfold fixups_wf, within_capacity, code_pos.
    rewrite Hlab, Hfix, add_var_code, add_var_code_cap.
    exact (conj Hw (conj Hc (conj Hl (conj H1 (conj H3 H2))))).
Qed.

Lemma fixups_wf_init : fixups_wf codegen_init.
Proof.
  unfold fixups_wf, within_capacity, code_pos, zlength. simpl.
  unfold MAX_CODE. repeat split; try lia; intros; contradiction.
Qed.

(** *** The loop of [resolve_fixups] *)

Lemma resolve_scan_spec ls fx cg :
  resolve_scan ls fx cg
  = match first_label ls (snd fx) with
    | Some target =>
        set_code cg
          (patch_i32 (code cg) (fst fx)
             (to_i32 (to_u64 (target - fst fx - 4))))
    | None => cg
    end.
Proof.
  induction ls as [|[n t] ls IH]; simpl; [reflexivity|].
  destruct (name_eqb (snd fx) n); [reflexivity|apply IH].
Qed.

Lemma resolve_scan_code ls fx cg :
  code (resolve_scan ls fx cg) = resolve_code ls (code cg) fx.
Proof.
  rewrite resolve_scan_spec. unfold resolve_code.
  destruct (first_label ls (snd fx)); reflexivity.
Qed.

Lemma fold_resolve_code ls fs : forall cg,
  code (fold_left (fun cg fx => resolve_scan ls fx cg) fs cg)
  = fold_left (resolve_code ls) fs (code cg).
Proof.
  induction fs as [|fx fs IH]; intro cg; simpl; [reflexivity|].
  rewrite IH, resolve_scan_code. reflexivity.
Qed.

Lemma resolve_fixups_code cg :
  code (resolve_fixups cg)
  = fold_left (resolve_code (labels cg)) (fixups cg) (code cg).
Proof.
  unfold resolve_fixups.
  rewrite (resolve_fixups_fold _ _ (labels cg) eq_refl).
  apply fold_resolve_code.
Qed.

Lemma resolve_code_length ls c fx : zlength (resolve_code ls c fx) = zlength c.
Proof.
  unfold resolve_code, zlength. destruct (first_label ls (snd fx)).
  - rewrite patch_i32_length. reflexivity.
  - reflexivity.
Qed.

Lemma bytes_at_in_range n l off bs :
  bytes_at n l off = Some bs -> 0 <= off /\ off + Z.of_nat n <= zlength l.
Proof.
  unfold bytes_at. intro H.
  destruct (Z.leb_spec 0 off); [|discriminate].
  destruct (Z.leb_spec (off + Z.of_nat n) (zlength l)); [|discriminate].
  split; assumption.
Qed.

Section Window.

Variable ls : list (list Z * Z).
Variable p : Z.
Variable n : list Z.

(** Rounds that patch elsewhere, or nowhere, leave the window at [p]. *)
Lemma window_kept : forall fs c,
  (forall fx, In fx fs ->
     apart (fst fx) p \/ first_label ls (snd fx) = None) ->
  bytes_at 4 (fold_left (resolve_code ls) fs c) p = bytes_at 4 c p.
Proof.
  induction fs as [|fx fs IH]; intros c H; simpl; [reflexivity|].
  rewrite IH by (intros fx' Hin; apply H; right; exact Hin).
  unfold resolve_code.
  destruct (H fx (or_introl eq_refl)) as [Ha|Hn].
  - destruct (first_label ls (snd fx)); [|reflexivity].
    apply patch_i32_apart. exact Ha.
  - rewrite Hn. reflexivity.
Qed.

Variable target : Z.
Hypothesis Hfound : first_label ls n = Some target.

Let offset := to_i32 (to_u64 (target - p - 4)).

(** Once patched, the window at [p] keeps its bytes. *)
Lemma window_stays : forall fs c,
  bytes_at 4 c p = Some (patch_bytes offset) ->
  (forall fx, In fx fs -> fx = (p, n) \/ apart (fst fx) p) ->
  bytes_at 4 (fold_left (resolve_code ls) fs c) p = Some (patch_bytes offset).
Proof.
  induction fs as [|fx fs IH]; intros c Hc H; simpl; [exact Hc|].
  apply IH; [|intros fx' Hin; apply H; right; exact Hin].
  destruct (H fx (or_introl eq_refl)) as [->|Ha].
  - unfold resolve_code. cbn [fst snd]. rewrite Hfound.
    apply bytes_at_in_range in Hc. destruct Hc as [H0 H4].
    apply patch_i32_window; assumption.
  - unfold resolve_code. destruct (first_label ls (snd fx)); [|exact Hc].
    rewrite patch_i32_apart by exact Ha. exact Hc.
Qed.

(** The round of the fixup [(p, n)] patches the window at [p]. *)
Lemma window_patched : forall fs c,
  0 <= p -> p + 4 <= zlength c ->
  In (p, n) fs ->
  (forall fx, In fx fs -> fx = (p, n) \/ apart (fst fx) p) ->
  bytes_at 4 (fold_left (resolve_code ls) fs c) p = Some (patch_bytes offset).
Proof.
  induction fs as [|fx fs IH]; intros c H0 H4 Hin H; [contradiction|].
  simpl.
  destruct (H fx (or_introl eq_refl)) as [->|Ha].
  - apply window_stays; [|intros fx' Hin'; apply H; right; exact Hin'].
    unfold resolve_code. cbn [fst snd]. rewrite Hfound.
    apply patch_i32_window; assumption.
  - apply IH; try assumption.
    + rewrite resolve_code_length. exact H4.
    + destruct Hin as [Heq|Hin]; [|exact Hin].
      subst fx. unfold apart in Ha. cbn [fst] in Ha. lia.
    + intros fx' Hin'. apply H. right. exact Hin'.
Qed.

End Window.

(** The heart of C1: on a code generator whose tables have the shape the
    emitters maintain, a fixup whose placeholder fits in the buffer is
    resolved as claimed. *)
Lemma resolve_fixups_in_range cg fx :
  fixups_wf cg -> In fx (fixups cg) -> fst fx + 4 <= code_cap cg ->
  fixup_as_claimed cg (resolve_fixups cg) fx.
Proof.
  intros (Hw & Hc & Hl & H1 & H3 & H2) Hin Hfit.
  destruct fx as [p n]. cbn [fst] in Hfit.
  unfold fixup_as_claimed. cbn [fst snd].
  rewrite resolve_fixups_code.
  destruct (H1 p n Hin) as [H0 Hem].
  assert (Hin4 : p + 4 <= code_pos cg) by lia.
  assert (Hothers : forall fx, In fx (fixups cg) ->
                               fx = (p, n) \/ apart (fst fx) p).
  { intros [p' n'] Hin'. cbn [fst].
    destruct (H2 p n p' n' Hin Hin') as [Heq|[Hlt|Hgt]].
    - left. symmetry. exact Heq.
    - right. unfold apart. lia.
    - right. unfold apart. lia. }
  destruct (first_label (labels cg) n) as [target|] eqn:Hf.
  - unfold read_i32, read_le.
    rewrite (window_patched (labels cg) p n target Hf (fixups cg) (code cg)
               H0 Hin4 Hin Hothers).
    cbn [option_map]. f_equal.
    assert (Ht : 0 <= target <= code_pos cg).
    { clear - Hf Hl. revert Hf Hl. generalize (labels cg).
      induction l as [|[n' t'] l IH]; simpl; intros Hf Hl; [discriminate|].
      destruct (name_eqb n n').
      - inversion Hf; subst. apply (Hl n' target). left. reflexivity.
      - apply IH; [exact Hf|]. intros n0 t0 Hin0. apply (Hl n0 t0).
        right. exact Hin0. }
    unfold within_capacity in Hw. rewrite Hc in Hw. unfold MAX_CODE in Hw.
    rewrite to_i32_to_u64.
    rewrite (to_i32_small (target - p - 4)) by lia.
    rewrite patch_bytes_decode by lia. lia.
  - rewrite window_kept.
    + apply (H3 p n Hin Hfit).
    + intros fx Hin'. destruct (Hothers fx Hin') as [->|Ha].
      * right. exact Hf.
      * left. exact Ha.
Qed.

Lemma fixups_wf_run_calls calls : fixups_wf (run_calls calls codegen_init).
Proof. apply (run_calls_keeps fixups_wf fixups_wf_kept). apply fixups_wf_init. Qed.

Lemma fixups_wf_compile_passes fuel text c0 :
  compile_passes fuel (compiler_init text) = Some (tt, c0) ->
  fixups_wf (codegen c0).
Proof.
  intro H.
  apply (Sim_keeps fixups_wf (compile_passes fuel) (compiler_init text) tt c0).
  - apply Sim_compile_passes. apply fixups_wf_kept.
  - rewrite codegen_compiler_init. apply fixups_wf_init.
  - exact H.
Qed.

(** C1, as amended.  For every fixup recorded before [resolve_fixups] runs
    whose four placeholder bytes fit in the code buffer
    ([fixup_offset + 4 <= capacity]), after [resolve_fixups] the four bytes
    at the fixup's offset encode, as a 32-bit signed little-endian integer,
    [label_offset - (fixup_offset + 4)] for the first label of the table
    with the fixup's name, and remain zero when no label has that name.
    This holds after any sequence of emitter calls from the initial state,
    and where [compile] calls [resolve_fixups]. *)
Theorem C1_fixups_in_range_are_resolved :
  (forall calls fx,
     In fx (fixups (run_calls calls codegen_init)) ->
     fst fx + 4 <= MAX_CODE ->
     fixup_as_claimed (run_calls calls codegen_init)
       (resolve_fixups (run_calls calls codegen_init)) fx) /\
  (forall fuel text c0 fx,
     compile_passes fuel (compiler_init text) = Some (tt, c0) ->
     In fx (fixups (codegen c0)) ->
     fst fx + 4 <= MAX_CODE ->
     fixup_as_claimed (codegen c0) (resolve_fixups (codegen c0)) fx).
Proof.
  split.
  - intros calls fx Hin Hfit.
    pose proof (fixups_wf_run_calls calls) as Hwf.
    apply resolve_fixups_in_range; try assumption.
    destruct Hwf as (_ & Hc & _). rewrite Hc. exact Hfit.
  - intros fuel text c0 fx Hp Hin Hfit.
    pose proof (fixups_wf_compile_passes fuel text c0 Hp) as Hwf.
    apply resolve_fixups_in_range; try assumption.
    destruct Hwf as (_ & Hc & _). rewrite Hc. exact Hfit.
Qed.

(** A run of C1: a forward jump over one byte. *)
Lemma C1_fixups_in_range_are_resolved_witness :
  let calls := [Call_add_fixup (str "L"); Call_emit_byte 0x90;
                Call_add_label (str "L")] in
  read_i32 (code (resolve_fixups (run_calls calls codegen_init))) 0 = Some 1.
Proof.
  exact (proj1 C1_fixups_in_range_are_resolved
           [Call_add_fixup (str "L"); Call_emit_byte 0x90;
            Call_add_label (str "L")]
           (0, str "L") (or_introl eq_refl)
           ltac:(unfold MAX_CODE; cbn [fst]; lia)).
Defined.

(** A fixup recorded when fewer than four bytes of capacity are left. *)
Lemma fixup_at_capacity (l : list Z) :
  MAX_CODE - 4 < zlength l <= MAX_CODE ->
  let cg := run_calls [Call_add_label (str "L"); Call_emit_bytes l;
                       Call_add_fixup (str "L")] codegen_init in
  In (zlength l, str "L") (fixups cg) /\
  first_label (labels cg) (str "L") = Some 0 /\
  read_i32 (code (resolve_fixups cg)) (zlength l) = None.
Proof.
  intros Hl cg.
  pose proof (fixups_wf_run_calls
                [Call_add_label (str "L"); Call_emit_bytes l;
                 Call_add_fixup (str "L")]) as Hwf.
  fold cg in Hwf. destruct Hwf as (Hw & Hc & _).
  set (g1 := add_label codegen_init (str "L")).
  assert (Hg1 : g1 = set_labels codegen_init [(str "L", 0)]) by reflexivity.
  set (g2 := emit_bytes g1 l).
  assert (Hpos2 : code_pos g2 = zlength l).
  { unfold g2. rewrite emit_bytes_code_pos.
    - rewrite Hg1. change (code_pos (set_labels codegen_init [(str "L", 0)]))
        with 0.
      change (code_cap (set_labels codegen_init [(str "L", 0)]))
        with MAX_CODE. lia.
    - rewrite Hg1. unfold within_capacity.
      change (code_pos (set_labels codegen_init [(str "L", 0)])) with 0.
      change (code_cap (set_labels codegen_init [(str "L", 0)]))
        with MAX_CODE. unfold MAX_CODE. lia. }
  assert (Hfix2 : fixups g2 = []).
  { unfold g2. rewrite emit_bytes_fixups, Hg1. reflexivity. }
  assert (Hlab2 : labels g2 = [(str "L", 0)]).
  { unfold g2. rewrite emit_bytes_labels, Hg1. reflexivity. }
  assert (Hcg : cg = add_fixup g2 (str "L")) by reflexivity.
  assert (Hcount : (fixup_count g2 <? MAX_LABELS) = true).
  { unfold fixup_count. rewrite Hfix2. reflexivity. }
  assert (Hfix : fixups cg = [(zlength l, str "L")]).
  { rewrite Hcg. unfold add_fixup. rewrite Hcount.
    rewrite emit_u32_bytes, emit_bytes_fixups.
    cbn [fixups set_fixups]. rewrite Hfix2, Hpos2. reflexivity. }
  assert (Hlab : labels cg = [(str "L", 0)]).
  { rewrite Hcg. unfold add_fixup. rewrite Hcount.
    rewrite emit_u32_bytes, emit_bytes_labels.
    cbn [labels set_fixups]. exact Hlab2. }
  split; [rewrite Hfix; left; reflexivity|].
  split; [rewrite Hlab; reflexivity|].
  unfold read_i32, read_le, bytes_at.
  fold (code_pos (resolve_fixups cg)). rewrite resolve_fixups_code_pos.
  unfold within_capacity in Hw. rewrite Hc in Hw.
  destruct (Z.leb_spec (zlength l + Z.of_nat 4) (code_pos cg)).
  - cbn [Z.of_nat Pos.of_succ_nat Pos.succ] in *. lia.
  - rewrite andb_false_r. reflexivity.
Qed.

(** C1 as stated fails for a fixup recorded at the end of the buffer: two
    bytes before the capacity, [add_fixup] records the fixup and emits two
    of its four placeholder bytes; the buffer does not hold four bytes at
    the fixup's offset, neither before nor after [resolve_fixups]. *)
Lemma C1_fixup_at_capacity_is_not_resolved :
  let cg := run_calls [Call_add_label (str "L");
                       Call_emit_bytes (repeat 0x90 (Z.to_nat (MAX_CODE - 2)));
                       Call_add_fixup (str "L")] codegen_init in
  In (MAX_CODE - 2, str "L") (fixups cg) /\
  ~ fixup_as_claimed cg (resolve_fixups cg) (MAX_CODE - 2, str "L").
Proof.
  set (N := Z.to_nat (MAX_CODE - 2)).
  assert (HN : Z.of_nat N = MAX_CODE - 2)
    by (apply Z2Nat.id; unfold MAX_CODE; lia).
  clearbody N.
  assert (Hlen : zlength (repeat 0x90 N) = MAX_CODE - 2).
  { unfold zlength. rewrite repeat_length. exact HN. }
  pose proof (fixup_at_capacity (repeat 0x90 N)) as H.
  rewrite Hlen in H.
  specialize (H ltac:(unfold MAX_CODE; lia)).
  cbv zeta in *. destruct H as (Hin & Hf & Hr).
  split; [exact Hin|].
  unfold fixup_as_claimed. cbn [fst snd]. rewrite Hf, Hr. discriminate.
Qed.

(* ================================================================== *)
(** ** C7: numeric literals *)

(** *** The scale factor of the fraction *)

Lemma frac_after_underflow : forall n, (330 <= n)%nat -> frac_after n = 0%float.
Proof.
  intros n H. replace n with ((n - 330) + 330)%nat by lia.
  induction (n - 330)%nat as [|k IH].
  - vm_compute. reflexivity.
  - change (S k + 330)%nat with (S (k + 330)). cbn [frac_after].
    rewrite IH. vm_compute. reflexivity.
Qed.

Lemma frac_after_harmless n : frac_harmless (frac_after n) = true.
Proof.
  destruct (Nat.lt_ge_cases n 330) as [Hlt|Hge].
  - assert (Hall : forallb (fun k => frac_harmless (frac_after k)) (seq 0 330)
                   = true) by (vm_compute; reflexivity).
    rewrite forallb_forall in Hall. apply Hall. apply in_seq. lia.
  - rewrite frac_after_underflow by exact Hge. vm_compute. reflexivity.
Qed.

Lemma frac_digit_truncates n ch :
  isdigit ch = true ->
  int64_of_double (PrimFloat.mul (double_of_Z (ch - 48)) (frac_after n)) = 0.
Proof.
  intro Hd. pose proof (frac_after_harmless n) as H.
  unfold frac_harmless in H. rewrite forallb_forall in H.
  apply Z.eqb_eq. apply H.
  unfold isdigit in Hd. apply andb_prop in Hd. destruct Hd as [H1 H2].
  apply Z.leb_le in H1. apply Z.leb_le in H2.
  assert (Hc : ch - 48 = 0 \/ ch - 48 = 1 \/ ch - 48 = 2 \/ ch - 48 = 3 \/
               ch - 48 = 4 \/ ch - 48 = 5 \/ ch - 48 = 6 \/ ch - 48 = 7 \/
               ch - 48 = 8 \/ ch - 48 = 9) by lia.
  simpl. intuition auto.
Qed.

Lemma to_i64_range v : int64_range (to_i64 v).
Proof.
  unfold int64_range, to_i64.
  pose proof (Z.mod_pos_bound (v + 2 ^ 63) (2 ^ 64) ltac:(lia)). lia.
Qed.

Lemma to_i64_small v : int64_range v -> to_i64 v = v.
Proof. unfold int64_range, to_i64. intro H. rewrite Z.mod_small by lia. lia. Qed.

(** *** Reading a text split at the position *)

Lemma peek_at_split (pre post : list Z) :
  peek_at (pre ++ post) (zlength (pre ++ post)) (zlength pre) = hd 0 post.
Proof.
  unfold peek_at. rewrite zlength_app.
  pose proof (zlength_nonneg post) as Hp.
  destruct post as [|ch post].
  - change (zlength (@nil Z)) with 0.
    rewrite Z.add_0_r, Z.ltb_irrefl. reflexivity.
  - destruct (Z.ltb_spec (zlength pre) (zlength pre + zlength (ch :: post))).
    + unfold zlength. rewrite Nat2Z.id. apply nth_middle.
    + unfold zlength in *. simpl length in *. lia.
Qed.

Lemma peek_n_at_split (pre : list Z) ch post :
  peek_n_at (pre ++ ch :: post) (zlength (pre ++ ch :: post)) (zlength pre) 1
  = hd 0 post.
Proof.
  replace (pre ++ ch :: post) with ((pre ++ [ch]) ++ post)
    by (rewrite <- app_assoc; reflexivity).
  rewrite <- (peek_at_split (pre ++ [ch]) post).
  unfold peek_n_at, peek_at. rewrite (zlength_app pre [ch]). reflexivity.
Qed.

Lemma advance_pos_split (pre : list Z) ch post :
  advance_pos (zlength (pre ++ ch :: post)) (zlength pre)
  = zlength (pre ++ [ch]).
Proof.
  unfold advance_pos. rewrite !zlength_app.
  pose proof (zlength_nonneg post).
  unfold zlength in *. simpl length.
  destruct (Z.ltb_spec (Z.of_nat (length pre))
              (Z.of_nat (length pre) + Z.of_nat (S (length post)))); lia.
Qed.

Lemma left_at_split (pre post : list Z) :
  left_at (zlength (pre ++ post)) (zlength pre) = length post.
Proof. unfold left_at. rewrite zlength_app. unfold zlength. lia. Qed.

Lemma in_source_split (pre : list Z) ch post :
  (zlength pre <? zlength (pre ++ ch :: post)) = true.
Proof.
  apply Z.ltb_lt. rewrite zlength_app. pose proof (zlength_nonneg post).
  unfold zlength in *. simpl length. lia.
Qed.

Lemma zlength_snoc (pre : list Z) ch : zlength (pre ++ [ch]) = zlength pre + 1.
Proof. rewrite zlength_app. reflexivity. Qed.

Lemma zlength_cons (ch : Z) l : zlength (ch :: l) = 1 + zlength l.
Proof. unfold zlength. simpl length. lia. Qed.

(** *** The three digit loops *)

Lemma dec_loop_digits : forall digits pre rest num fuel src,
  src = pre ++ digits ++ rest ->
  Forall (fun ch => isdigit ch = true) digits ->
  no_digit_ahead rest ->
  (length digits <= fuel)%nat ->
  dec_loop src (zlength src) fuel (zlength pre) num
  = (digits_value 10 (fun ch => ch - 48) digits num,
     zlength pre + zlength digits).
Proof.
  induction digits as [|d ds IH]; intros pre rest num fuel src Hsrc Hd Hr Hf.
  - change (zlength (@nil Z)) with 0. rewrite Z.add_0_r. cbn [digits_value fold_left].
    destruct fuel as [|fuel]; [reflexivity|]. cbn [dec_loop].
    subst src. cbn [app]. rewrite peek_at_split. unfold no_digit_ahead in Hr.
    rewrite Hr, andb_false_r. reflexivity.
  - destruct fuel as [|fuel]; [simpl in Hf; lia|]. cbn [dec_loop].
    inversion Hd as [|? ? Hd1 Hd2]; subst.
    cbn [app]. rewrite in_source_split, peek_at_split. cbn [hd].
    rewrite Hd1. cbn [andb]. rewrite advance_pos_split.
    rewrite (IH (pre ++ [d]) rest _ fuel).
    + rewrite zlength_snoc, zlength_cons. f_equal. lia.
    + rewrite <- app_assoc. reflexivity.
    + exact Hd2.
    + exact Hr.
    + simpl in Hf. lia.
Qed.

Lemma hex_digit_step ch num :
  isxdigit ch = true ->
  (if (48 <=? ch) && (ch <=? 57) then to_i64 (num * 16 + (ch - 48))
   else if (97 <=? ch) && (ch <=? 102) then to_i64 (num * 16 + (ch - 97 + 10))
   else if (65 <=? ch) && (ch <=? 70) then to_i64 (num * 16 + (ch - 65 + 10))
   else num)
  = to_i64 (num * 16 + hex_val ch).
Proof.
  unfold isxdigit, hex_val, hexval, isdigit. intro H.
  destruct ((48 <=? ch) && (ch <=? 57)); [reflexivity|].
  destruct ((97 <=? ch) && (ch <=? 102)); [reflexivity|].
  destruct ((65 <=? ch) && (ch <=? 70)); [reflexivity|].
  discriminate.
Qed.

Lemma hex_loop_digits : forall digits pre rest num fuel src,
  src = pre ++ digits ++ rest ->
  Forall (fun ch => isxdigit ch = true) digits ->
  isxdigit (hd 0 rest) = false ->
  (length digits <= fuel)%nat ->
  hex_loop src (zlength src) fuel (zlength pre) num
  = (digits_value 16 hex_val digits num, zlength pre + zlength digits).
Proof.
  induction digits as [|d ds IH]; intros pre rest num fuel src Hsrc Hd Hr Hf.
  - change (zlength (@nil Z)) with 0. rewrite Z.add_0_r. cbn [digits_value fold_left].
    destruct fuel as [|fuel]; [reflexivity|]. cbn [hex_loop].
    subst src. cbn [app]. rewrite peek_at_split.
    rewrite Hr, andb_false_r. reflexivity.
  - destruct fuel as [|fuel]; [simpl in Hf; lia|]. cbn [hex_loop].
    inversion Hd as [|? ? Hd1 Hd2]; subst.
    cbn [app]. rewrite in_source_split, peek_at_split. cbn [hd].
    rewrite Hd1. cbn [andb]. rewrite advance_pos_split.
    assert (Hstep :
      (if (48 <=? d) && (d <=? 57)
       then hex_loop (pre ++ d :: ds ++ rest) (zlength (pre ++ d :: ds ++ rest))
              fuel (zlength (pre ++ [d])) (to_i64 (num * 16 + (d - 48)))
       else if (97 <=? d) && (d <=? 102)
       then hex_loop (pre ++ d :: ds ++ rest) (zlength (pre ++ d :: ds ++ rest))
              fuel (zlength (pre ++ [d])) (to_i64 (num * 16 + (d - 97 + 10)))
       else if (65 <=? d) && (d <=? 70)
       then hex_loop (pre ++ d :: ds ++ rest) (zlength (pre ++ d :: ds ++ rest))
              fuel (zlength (pre ++ [d])) (to_i64 (num * 16 + (d - 65 + 10)))
       else hex_loop (pre ++ d :: ds ++ rest) (zlength (pre ++ d :: ds ++ rest))
              fuel (zlength (pre ++ [d])) num)
      = hex_loop (pre ++ d :: ds ++ rest) (zlength (pre ++ d :: ds ++ rest))
          fuel (zlength (pre ++ [d])) (to_i64 (num * 16 + hex_val d))).
    { rewrite <- (hex_digit_step d num Hd1).
      destruct ((48 <=? d) && (d <=? 57)); [reflexivity|].
      destruct ((97 <=? d) && (d <=? 102)); [reflexivity|].
      destruct ((65 <=? d) && (d <=? 70)); reflexivity. }
    rewrite Hstep.
    rewrite (IH (pre ++ [d]) rest _ fuel).
    + rewrite zlength_snoc, zlength_cons. f_equal. lia.
    + rewrite <- app_assoc. reflexivity.
    + exact Hd2.
    + exact Hr.
    + simpl in Hf. lia.
Qed.

(** The loop over the fraction moves the position and leaves [num]. *)
Lemma frac_loop_digits : forall frac pre rest num k fuel src,
  src = pre ++ frac ++ rest ->
  Forall (fun ch => isdigit ch = true) frac ->
  no_digit_ahead rest ->
  (length frac <= fuel)%nat ->
  int64_range num ->
  frac_loop src (zlength src) fuel (zlength pre) num (frac_after k)
  = (num, zlength pre + zlength frac).
Proof.
  induction frac as [|d ds IH]; intros pre rest num k fuel src Hsrc Hd Hr Hf Hn.
  - change (zlength (@nil Z)) with 0. rewrite Z.add_0_r.
    destruct fuel as [|fuel]; [reflexivity|]. cbn [frac_loop].
    subst src. cbn [app]. rewrite peek_at_split. unfold no_digit_ahead in Hr.
    rewrite Hr, andb_false_r. reflexivity.
  - destruct fuel as [|fuel]; [simpl in Hf; lia|]. cbn [frac_loop].
    inversion Hd as [|? ? Hd1 Hd2]; subst.
    cbn [app]. rewrite in_source_split, peek_at_split. cbn [hd].
    rewrite Hd1. cbn [andb]. rewrite advance_pos_split.
    rewrite frac_digit_truncates by exact Hd1.
    rewrite Z.add_0_r, (to_i64_small num Hn).
    change (PrimFloat.mul (frac_after k) 0.1%float) with (frac_after (S k)).
    rewrite (IH (pre ++ [d]) rest num (S k) fuel).
    + rewrite zlength_snoc, zlength_cons. f_equal. lia.
    + rewrite <- app_assoc. reflexivity.
    + exact Hd2.
    + exact Hr.
    + simpl in Hf. lia.
    + exact Hn.
Qed.

Lemma digits_value_range base val digits :
  forall acc, int64_range acc -> int64_range (digits_value base val digits acc).
Proof.
  unfold digits_value. induction digits as [|d ds IH]; intros acc Ha; simpl.
  - exact Ha.
  - apply IH. apply to_i64_range.
Qed.

(** *** The literal *)

Lemma peek_at_eq src (pre post : list Z) :
  src = pre ++ post -> peek_at src (zlength src) (zlength pre) = hd 0 post.
Proof. intros ->. apply peek_at_split. Qed.

Lemma peek_n_at_eq src (pre : list Z) ch post :
  src = pre ++ ch :: post ->
  peek_n_at src (zlength src) (zlength pre) 1 = hd 0 post.
Proof. intros ->. apply peek_n_at_split. Qed.

Lemma advance_pos_eq src (pre : list Z) ch post :
  src = pre ++ ch :: post ->
  advance_pos (zlength src) (zlength pre) = zlength (pre ++ [ch]).
Proof. intros ->. apply advance_pos_split. Qed.

Lemma left_at_eq src (pre post : list Z) :
  src = pre ++ post -> left_at (zlength src) (zlength pre) = length post.
Proof. intros ->. apply left_at_split. Qed.

(** The sign. *)
Lemma parse_sign src pre (neg : bool) body :
  src = pre ++ (if neg then [45] else []) ++ body ->
  (neg = false -> hd 0 body <> 45) ->
  (if peek_at src (zlength src) (zlength pre) =? 45
   then (true, advance_pos (zlength src) (zlength pre))
   else (false, zlength pre))
  = (neg, zlength (pre ++ (if neg then [45] else []))).
Proof.
  intros Hsrc Hb. destruct neg.
  - rewrite (peek_at_eq src pre (45 :: body)) by exact Hsrc. cbn [hd].
    rewrite Z.eqb_refl. rewrite (advance_pos_eq src pre 45 body) by exact Hsrc.
    reflexivity.
  - cbn [app] in Hsrc. rewrite (peek_at_eq src pre body) by exact Hsrc.
    specialize (Hb eq_refl). apply Z.eqb_neq in Hb. rewrite Hb.
    rewrite app_nil_r. reflexivity.
Qed.

(** The integer part, in base 16 after [0x] and in base 10 otherwise; a
    dot follows the digits. *)
Lemma parse_integer_part src pre (hex : bool) digits tail :
  src = pre ++ (if hex then [48; 120] else []) ++ digits ++ 46 :: tail ->
  Forall (fun ch => (if hex then isxdigit ch else isdigit ch) = true) digits ->
  (if (peek_at src (zlength src) (zlength pre) =? 48)
      && (peek_n_at src (zlength src) (zlength pre) 1 =? 120)
   then
     hex_loop src (zlength src)
       (left_at (zlength src)
          (advance_pos (zlength src)
             (advance_pos (zlength src) (zlength pre))))
       (advance_pos (zlength src) (advance_pos (zlength src) (zlength pre)))
       0
   else
     dec_loop src (zlength src) (left_at (zlength src) (zlength pre))
       (zlength pre) 0)
  = (if hex then digits_value 16 hex_val digits 0
     else digits_value 10 (fun ch => ch - 48) digits 0,
     zlength (pre ++ (if hex then [48; 120] else []) ++ digits)).
Proof.
  intros Hsrc Hd. destruct hex.
  - cbn [app] in Hsrc.
    rewrite (peek_at_eq src pre _ Hsrc). cbn [hd].
    rewrite (peek_n_at_eq src pre 48 _ Hsrc). cbn [hd andb Z.eqb Pos.eqb].
    cbv zeta.
    rewrite (advance_pos_eq src pre 48 _ Hsrc).
    assert (Hsrc1 : src = (pre ++ [48]) ++ 120 :: digits ++ 46 :: tail)
      by (rewrite Hsrc; repeat rewrite <- app_assoc; cbn [app]; reflexivity).
    rewrite (advance_pos_eq src (pre ++ [48]) 120 _ Hsrc1).
    assert (Hsrc2 : src = ((pre ++ [48]) ++ [120]) ++ digits ++ 46 :: tail)
      by (rewrite Hsrc1; repeat rewrite <- app_assoc; cbn [app]; reflexivity).
    rewrite (left_at_eq src _ _ Hsrc2).
    rewrite (hex_loop_digits digits ((pre ++ [48]) ++ [120]) (46 :: tail) 0 _
               src Hsrc2 Hd eq_refl).
    + f_equal. rewrite !zlength_app. cbn [app]. rewrite !zlength_cons.
      change (zlength (@nil Z)) with 0. lia.
    + rewrite length_app. lia.
  - cbn [app] in Hsrc |- *.
    assert (Hcond : (peek_at src (zlength src) (zlength pre) =? 48)
                    && (peek_n_at src (zlength src) (zlength pre) 1 =? 120)
                    = false).
    { destruct digits as [|d ds].
      - cbn [app] in Hsrc. rewrite (peek_at_eq src pre _ Hsrc). reflexivity.
      - cbn [app] in Hsrc. rewrite (peek_n_at_eq src pre d _ Hsrc).
        inversion Hd as [|d0 l0 Hd1 Hd2 Heq].
        destruct ds as [|d' ds'].
        + cbn [app hd]. apply andb_false_r.
        + cbn [app hd]. inversion Hd2 as [|d1 l1 Hd3 Hd4 Heq1].
          unfold isdigit in Hd3. apply andb_prop in Hd3.
          destruct Hd3 as [_ Hle]. apply Z.leb_le in Hle.
          destruct (Z.eqb_spec d' 120); [lia|]. apply andb_false_r. }
    rewrite Hcond.
    rewrite (left_at_eq src _ _ Hsrc).
    rewrite (dec_loop_digits digits pre (46 :: tail) 0 _ src Hsrc Hd eq_refl).
    + f_equal. rewrite zlength_app. reflexivity.
    + rewrite length_app. lia.
Qed.

(** C7.  A numeric literal with a fractional part: an optional [-], an
    optional [0x], the digits of the integer part (decimal, or hexadecimal
    after [0x]), a dot and the decimal digits of the fraction.
    [parse_number] returns the value of the integer part, negated after
    [-], read in base 16 after [0x]; the digits after the dot contribute
    nothing, and the position moves past the whole literal. *)
Theorem C7_parse_number_truncates_fraction
    (pre rest : list Z) (neg hex : bool) (digits frac : list Z) :
  Forall (fun ch => (if hex then isxdigit ch else isdigit ch) = true) digits ->
  Forall (fun ch => isdigit ch = true) frac ->
  no_digit_ahead rest ->
  let src := pre ++ literal_text neg hex digits frac ++ rest in
  parse_number_at src (zlength src) (zlength pre)
  = (integer_part_value neg hex digits,
     zlength pre + zlength (literal_text neg hex digits frac)).
Proof.
  intros Hd Hf Hr src.
  set (sign := if neg then [45] else []).
  set (prefix := if hex then [48; 120] else []).
  assert (Hsrc : src = pre ++ sign ++ prefix ++ digits ++ 46 :: frac ++ rest).
  { unfold src, literal_text. fold sign. fold prefix.
    rewrite <- !app_assoc. reflexivity. }
  clearbody src.
  unfold parse_number_at.
  rewrite (parse_sign src pre neg (prefix ++ digits ++ 46 :: frac ++ rest) Hsrc).
  2:{ intros _. unfold prefix. destruct hex; [cbn; lia|].
      cbn [app]. destruct digits as [|d ds]; [cbn; lia|].
      cbn [app hd]. inversion Hd as [|? ? Hd1 _]; subst.
      unfold isdigit in Hd1. apply andb_prop in Hd1. destruct Hd1 as [H1 _].
      apply Z.leb_le in H1. lia. }
  fold sign.
  assert (Hsrc1 : src = (pre ++ sign) ++ prefix ++ digits ++ 46 :: frac ++ rest)
    by (rewrite Hsrc; repeat rewrite <- app_assoc; cbn [app]; reflexivity).
  rewrite (parse_integer_part src (pre ++ sign) hex digits (frac ++ rest)
             Hsrc1 Hd).
  fold prefix.
  assert (Hsrc2 : src = ((pre ++ sign) ++ prefix ++ digits)
                        ++ 46 :: frac ++ rest)
    by (rewrite Hsrc1; repeat rewrite <- app_assoc; cbn [app]; reflexivity).
  rewrite (peek_at_eq src _ _ Hsrc2). cbn [hd Z.eqb Pos.eqb].
  rewrite (advance_pos_eq src _ 46 _ Hsrc2).
  assert (Hsrc3 : src = (((pre ++ sign) ++ prefix ++ digits) ++ [46])
                        ++ frac ++ rest)
    by (rewrite Hsrc2; repeat rewrite <- app_assoc; cbn [app]; reflexivity).
  rewrite (left_at_eq src _ _ Hsrc3).
  change 0.1%float with (frac_after 0).
  rewrite (frac_loop_digits frac _ rest _ 0%nat _ src Hsrc3 Hf Hr).
  - unfold integer_part_value. f_equal.
    unfold literal_text. fold sign. fold prefix.
    rewrite !zlength_app. change (zlength [46]) with 1. lia.
  - rewrite length_app. lia.
  - destruct hex; apply digits_value_range; unfold int64_range; lia.
Qed.

(** A run of C7: the literal [1.5] parses to 1, and [-0x1F.75] to -31. *)
Lemma C7_parse_number_truncates_fraction_witness :
  parse_number_at (str "1.5") 3 0 = (1, 3) /\
  parse_number_at (str "x = -0x1F.75;") 13 4 = (-31, 12).
Proof.
  split.
  - exact (C7_parse_number_truncates_fraction [] [] false false
             (str "1") (str "5")
             ltac:(repeat constructor) ltac:(repeat constructor) eq_refl).
  - exact (C7_parse_number_truncates_fraction (str "x = ") (str ";") true true
             (str "1F") (str "75")
             ltac:(repeat constructor) ltac:(repeat constructor) eq_refl).
Defined.

(* ================================================================== *)
(** ** C10: [out] and [emit] with an empty string *)

(** C10.  When the string literal of an [out] or [emit] statement resolves
    to the empty string ([strlen] of the parsed buffer is 0), the statement
    only moves the read position past the literal: the code generator (code
    buffer, cursor, fixup, label, variable and function tables) is exactly
    as before, so no write sequence is generated. *)
Theorem C10_empty_out_and_emit_emit_nothing c :
  let p := skip_whitespace_at (source c) (len c) (pos c) in
  strlen (fst (parse_string_at (source c) (len c) p)) = 0 ->
  compile_out c
  = Some (tt, set_pos c (snd (parse_string_at (source c) (len c) p))) /\
  compile_emit c
  = Some (tt, set_pos c (snd (parse_string_at (source c) (len c) p))) /\
  codegen (set_pos c (snd (parse_string_at (source c) (len c) p)))
  = codegen c.
Proof.
  intros p Hlen. unfold strlen in Hlen.
  split; [|split; [|reflexivity]].
  - unfold compile_out.
    rewrite (run_bind _ _ _ _ _ (run_skip_whitespace c)). fold p.
    rewrite (run_bind _ _ _ _ _ (run_parse_string _)).
    cbn [source len pos set_pos]. rewrite Hlen. reflexivity.
  - unfold compile_emit.
    rewrite (run_bind _ _ _ _ _ (run_skip_whitespace c)). fold p.
    rewrite (run_bind _ _ _ _ _ (run_parse_string _)).
    cbn [source len pos set_pos]. rewrite Hlen. reflexivity.
Qed.

(** A run of C10: the statement [out ""], read from after the keyword. *)
Lemma C10_empty_out_and_emit_emit_nothing_witness :
  let c := set_pos (compiler_init (str "out " ++ [34; 34])) 4 in
  compile_out c = Some (tt, set_pos c 6) /\
  compile_emit c = Some (tt, set_pos c 6) /\
  codegen (set_pos c 6) = codegen c.
Proof.
  exact (C10_empty_out_and_emit_emit_nothing
           (set_pos (compiler_init (str "out " ++ [34; 34])) 4) eq_refl).
Defined.

(* ================================================================== *)
(** ** C9: reading an undefined variable *)


(** The bytes of [mov rax, 0]. *)
Lemma gen_mov_rax_imm_zero_code g :
  code_pos g + 10 <= code_cap g ->
  code (gen_mov_rax_imm g 0)
  = code g ++ [0x48; 0xb8; 0; 0; 0; 0; 0; 0; 0; 0].
Proof.
  intro H. unfold gen_mov_rax_imm. rewrite emit_u64_bytes, emit_bytes_app.
  rewrite emit_bytes_code_room; [reflexivity|].
  unfold zlength. simpl length. lia.
Qed.





(* ================================================================== *)
(** ** C5: string literals in expressions *)

(** C5 at a literal of 127 characters: the operand of the short jump is
    [len + 1 = 128] cut to a byte, [0x80], which the processor reads as
    [-128]; the jump at offset 0 lands at [-126], before the code, and not
    on the [lea] at offset 130 that follows the 127 string bytes and the
    NUL. *)
Theorem C5_short_jump_over_127_characters :
  exists c',
    compile_expr 3 (compiler_init (literal_of_a 127)) = Some (0, c') /\
    code (codegen c')
    = [0xeb; 0x80] ++ repeat 97 127 ++ [0]
      ++ [0x48; 0x8d; 0x05; 0x79; 0xff; 0xff; 0xff] /\
    bytes_at 3 (code (codegen c')) 130 = Some [0x48; 0x8d; 0x05] /\
    short_jump_target (code (codegen c')) 0 = -126.
Proof.
  eexists. split; [vm_compute; reflexivity|].
  cbn [codegen code]. repeat split.
Qed.

(** One character less and the jump lands on the [lea]. *)
Lemma short_jump_over_126_characters :
  exists c',
    compile_expr 3 (compiler_init (literal_of_a 126)) = Some (0, c') /\
    bytes_at 3 (code (codegen c')) 129 = Some [0x48; 0x8d; 0x05] /\
    short_jump_target (code (codegen c')) 0 = 129.
Proof.
  eexists. split; [vm_compute; reflexivity|].
  cbn [codegen code]. repeat split.
Qed.

(* ================================================================== *)
(** ** C6: an output file that cannot be opened *)

(** C6.  When the input is read and the compiler allocated, a failing
    [fopen] of the output file changes nothing but the file: a run of
    [main] that ends exits with code 0, writes nothing on the error
    stream and leaves no output file. *)
Theorem C6_unwritable_output_exits_zero fuel env prog input opts text out :
  argv env = prog :: input :: opts ->
  input_file env = Some text ->
  malloc_ok env = true ->
  output_ok env = false ->
  main fuel env = Some out ->
  exit_code out = 0 /\ stderr out = [] /\ output_file out = None.
Proof.
  intros Hargv Hin Hmalloc Hout Hmain. unfold main in Hmain.
  rewrite Hargv, Hin, Hmalloc, Hout in Hmain.
  destruct (parse_args opts (str "a.out") false) as [output raw].
  cbn [negb] in Hmain.
  destruct (compile fuel (compiler_init text)) as [[u c]|]; [|discriminate].
  injection Hmain as <-.
  unfold write_raw, write_elf. cbn [negb exit_code stderr output_file].
  destruct raw; repeat split.
Qed.

(** A run of C6, next to a run whose input cannot be opened. *)
Lemma C6_unwritable_output_exits_zero_witness :
  let env := mkEnv [str "wave"; str "in.wave"] (Some (str "syscall.exit(0)"))
               true false in
  main 50 env = Some (mkOutcome 0 [] (str "a.out") None) /\
  (exit_code (mkOutcome 0 [] (str "a.out") None) = 0 /\
   stderr (mkOutcome 0 [] (str "a.out") None) = [] /\
   output_file (mkOutcome 0 [] (str "a.out") None) = None) /\
  main 50 (mkEnv [str "wave"; str "in.wave"] None true true)
  = Some (mkOutcome 1 (str "Cannot open: in.wave" ++ [10]) (str "a.out") None).
Proof.
  assert (Hrun : main 50 (mkEnv [str "wave"; str "in.wave"]
                            (Some (str "syscall.exit(0)")) true false)
                 = Some (mkOutcome 0 [] (str "a.out") None))
    by (vm_compute; reflexivity).
  split; [exact Hrun|]. split; [|vm_compute; reflexivity].
  exact (C6_unwritable_output_exits_zero 50
           (mkEnv [str "wave"; str "in.wave"] (Some (str "syscall.exit(0)"))
              true false)
           (str "wave") (str "in.wave") [] (str "syscall.exit(0)") _
           eq_refl eq_refl eq_refl eq_refl Hrun).
Defined.

(* ================================================================== *)
(** ** C4: call sites and parameter frames *)




























(** *** Parameters in the variable table *)








